(** * Moments, correlation and PCA of the statistical toolkit

    A shallow embedding of

      - [math/multivariate_prob/0-mean_cov.py]      ([mean_cov]),
      - [math/multivariate_prob/1-correlation.py]   ([correlation]),
      - [unsupervised_learning/dimensionality_reduction/0-pca.py] ([pca]),

    and the properties of these three functions.

    Numbers.  numpy computes in IEEE double precision; the embedding computes
    in exact arithmetic over the real numbers [R], so rounding is not
    modelled.  Where [pca] can divide by zero ([np.cov] on fewer than two
    observations, and the explained variance ratio) the IEEE outcome, an
    infinity or a NaN, is modelled, because the control flow of [pca]
    depends on it.  [correlation] on a matrix with a zero or negative
    variance returns entries that are not finite; its properties about
    entries assume a positive diagonal. *)

From Stdlib Require Import String.
From Stdlib Require Import Reals Lra Lia List Bool Arith PeanoNat.
From Stdlib Require Import Permutation.
Import ListNotations.

Local Open Scope string_scope.
Local Open Scope list_scope.
Local Open Scope R_scope.

(* ================================================================= *)
(** ** Python values *)

(** The exceptions the three functions can end with.  [LinAlgError] is
    numpy's; the other two are Python's own. *)
Inductive exn : Type :=
| TypeError (msg : string)
| ValueError (msg : string)
| LinAlgError (msg : string).

(** The outcome of a call: a returned value or a raised exception. *)
Inductive result (A : Type) : Type :=
| Ok (a : A)
| Raise (e : exn).

Arguments Ok {A} a.
Arguments Raise {A} e.

Definition bind {A B : Type} (r : result A) (k : A -> result B) : result B :=
  match r with
  | Ok a => k a
  | Raise e => Raise e
  end.

Notation "x <- r ;; k" := (bind r (fun x => k))
  (at level 61, r at next level, right associativity).

(** The element kind of an array: [Numeric] stands for numpy's bool, integer
    and floating dtypes, [Text] for a dtype numpy has no arithmetic for
    (an array of strings, such as [np.array([['a', 'b']])]). *)
Inductive dtype : Type := Numeric | Text.

(** A [numpy.ndarray]: its dtype, its shape and, for a 2-dimensional numeric
    array, its rows.  ([rows] is not read for other arrays.) *)
Record ndarray : Type := mkArray {
  dtype_of : dtype;
  shape : list nat;
  rows : list (list R)
}.

Definition ndim (a : ndarray) : nat := length (shape a).

(** A Python object passed as [X] or [C]: an ndarray, or anything else
    (a list, a number, [None], ...). *)
Inductive pyobj : Type :=
| PyArray (a : ndarray)
| PyOther.

(** The numeric [n] x [d] matrix with rows [M], as a Python object. *)
Definition matrix_obj (n d : nat) (M : list (list R)) : pyobj :=
  PyArray (mkArray Numeric [n; d] M).

(** [M] holds [n] rows of [d] entries each. *)
Definition wf_rows {A : Type} (n d : nat) (M : list (list A)) : Prop :=
  length M = n /\ Forall (fun r => length r = d) M.

(** [X] is a 2-dimensional numeric matrix. *)
Definition numeric_matrix (X : pyobj) : Prop :=
  exists n d M, X = matrix_obj n d M /\ wf_rows n d M.

(** [X] is an ndarray with two axes, of whatever dtype. *)
Definition array_2d (X : pyobj) : Prop :=
  exists a, X = PyArray a /\ ndim a = 2%nat.

(** Entry [(i, j)] of a matrix given by its rows. *)
Definition entry (M : list (list R)) (i j : nat) : R := nth j (nth i M []) 0.

(* ================================================================= *)
(** ** The numpy operations the programs call *)

(** Arithmetic on an array of a non-numeric dtype: numpy's ufuncs and
    reductions ([np.mean], [np.sqrt], [np.cov]) raise a [TypeError]. *)
Definition np_no_loop : string := "ufunc not supported for the input types".

Definition np_arith (a : ndarray) : result unit :=
  match dtype_of a with
  | Numeric => Ok tt
  | Text => Raise (TypeError np_no_loop)
  end.

(** [np.sum] of a 1-dimensional array. *)
Definition np_sum (l : list R) : R := fold_left Rplus l 0.

(** Column [j] of a matrix. *)
Definition column (j : nat) (M : list (list R)) : list R :=
  map (fun r => nth j r 0) M.

(** [M.T] for an array of shape [(n, d)]. *)
Definition transpose (d : nat) (M : list (list R)) : list (list R) :=
  map (fun j => column j M) (seq 0 d).

(** [np.mean(X, axis=0, keepdims=True)] for a numeric array of shape [(n, d)]:
    the single row of column averages. *)
Definition np_mean_axis0 (n d : nat) (M : list (list R)) : list (list R) :=
  [map (fun j => np_sum (column j M) / INR n) (seq 0 d)].

(** [A - b] with [b] of shape [(1, d)] broadcast over the rows of [A]. *)
Definition sub_broadcast (A : list (list R)) (b : list (list R)) : list (list R) :=
  map (fun r => map (fun p => fst p - snd p) (combine r (nth 0 b []))) A.

(** The inner product of two 1-dimensional arrays of equal length. *)
Definition inner (u v : list R) : R :=
  np_sum (map (fun p => fst p * snd p) (combine u v)).

(** [np.dot(A, B)] for 2-dimensional arrays, [B] with [c] columns. *)
Definition np_dot (c : nat) (A B : list (list R)) : list (list R) :=
  map (fun ra => map (fun k => inner ra (column k B)) (seq 0 c)) A.

(** [A / s] for a scalar [s]. *)
Definition div_scalar (A : list (list R)) (s : R) : list (list R) :=
  map (fun r => map (fun x => x / s) r) A.

(* ================================================================= *)
(** ** [mean_cov] (0-mean_cov.py) *)

Definition mean_cov (X : pyobj) : result (ndarray * ndarray) :=
  match X with
  | PyOther => Raise (TypeError "X must be a 2D numpy.ndarray")
  | PyArray a =>
      if negb (ndim a =? 2)%nat
      then Raise (TypeError "X must be a 2D numpy.ndarray")
      else
        let n := nth 0 (shape a) 0%nat in
        let d := nth 1 (shape a) 0%nat in
        if (n <? 2)%nat
        then Raise (ValueError "X must contain multiple data points")
        else
          _ <- np_arith a ;;
          let mean := np_mean_axis0 n d (rows a) in
          let X_centered := sub_broadcast (rows a) mean in
          let cov :=
            div_scalar (np_dot d (transpose d X_centered) X_centered)
                       (INR (n - 1)) in
          Ok (mkArray Numeric [1%nat; d] mean, mkArray Numeric [d; d] cov)
  end.

(* ================================================================= *)
(** ** [correlation] (1-correlation.py) *)

(** [np.diag(C)] for an array of shape [(d, d)]. *)
Definition np_diag (d : nat) (M : list (list R)) : list R :=
  map (fun i => entry M i i) (seq 0 d).

(** [np.sqrt], element by element.  (numpy yields NaN, with a warning, for a
    negative entry; the properties below that speak of entries assume a
    positive diagonal.) *)
Definition np_sqrt (v : list R) : list R := map sqrt v.

(** [np.outer(u, v)]. *)
Definition np_outer (u v : list R) : list (list R) :=
  map (fun x => map (fun y => x * y) v) u.

(** [A / B], element by element, for arrays of one shape.  (numpy yields an
    infinity or NaN, with a warning, where [B] is zero.) *)
Definition np_divide (A B : list (list R)) : list (list R) :=
  map (fun p => map (fun q => fst q / snd q) (combine (fst p) (snd p)))
      (combine A B).

(** [l] with position [i] overwritten by [v]. *)
Fixpoint set_nth (i : nat) (v : R) (l : list R) {struct l} : list R :=
  match l, i with
  | [], _ => []
  | _ :: t, O => v :: t
  | x :: t, S i' => x :: set_nth i' v t
  end.

(** [np.fill_diagonal(A, v)]: entry [(i, i)] of every row [i] becomes [v]. *)
Definition np_fill_diagonal (A : list (list R)) (v : R) : list (list R) :=
  map (fun p => set_nth (fst p) v (snd p)) (combine (seq 0 (length A)) A).

Definition correlation (C : pyobj) : result ndarray :=
  match C with
  | PyOther => Raise (TypeError "C must be a numpy.ndarray")
  | PyArray a =>
      if negb (ndim a =? 2)%nat
         || negb (nth 0 (shape a) 0%nat =? nth 1 (shape a) 0%nat)%nat
      then Raise (ValueError "C must be a 2D square matrix")
      else
        let d := nth 0 (shape a) 0%nat in
        _ <- np_arith a ;;
        let std_devs := np_sqrt (np_diag d (rows a)) in
        let corr := np_divide (rows a) (np_outer std_devs std_devs) in
        Ok (mkArray Numeric [d; d] (np_fill_diagonal corr 1))
  end.

(* ================================================================= *)
(** ** Scalars of the eigendecomposition *)

(** Comparisons of real numbers as booleans. *)
Definition Rleb (x y : R) : bool := if Rle_dec x y then true else false.
Definition Rltb (x y : R) : bool := if Rlt_dec x y then true else false.
Definition Reqb (x y : R) : bool := if Req_dec_T x y then true else false.

(** A floating-point quotient: finite, an infinity, or not a number. *)
Inductive xreal : Type := Fin (r : R) | PInf | NInf | NaN.

(** IEEE division [a / b] of two finite numbers (a zero divisor is taken as
    positive zero). *)
Definition xdiv (a b : R) : xreal :=
  if Reqb b 0
  then if Rltb 0 a then PInf else if Rltb a 0 then NInf else NaN
  else Fin (a / b).

(** [x >= v], [x > v], [x == v] for a finite [v]; every comparison with NaN
    is false. *)
Definition xge (x : xreal) (v : R) : bool :=
  match x with Fin r => Rleb v r | PInf => true | NInf | NaN => false end.
Definition xgt (x : xreal) (v : R) : bool :=
  match x with Fin r => Rltb v r | PInf => true | NInf | NaN => false end.
Definition xeq (x : xreal) (v : R) : bool :=
  match x with Fin r => Reqb r v | _ => false end.
Definition xisnan (x : xreal) : bool :=
  match x with NaN => true | _ => false end.

(** Complex numbers ([np.linalg.eig] returns a complex array as soon as one
    eigenvalue it computed has a non-zero imaginary part). *)
Record complex : Type := mkC { re : R; im : R }.

Definition Cadd (a b : complex) : complex := mkC (re a + re b) (im a + im b).

(** numpy's order on complex numbers, used by sorting: lexicographic. *)
Definition Cleb (a b : complex) : bool :=
  Rltb (re a) (re b) || (Reqb (re a) (re b) && Rleb (im a) (im b)).

(** numpy's complex division; a zero divisor divides both parts by zero. *)
Definition Cxdiv (a b : complex) : xreal * xreal :=
  if Reqb (re b) 0 && Reqb (im b) 0
  then (xdiv (re a) 0, xdiv (im a) 0)
  else
    let m := re b * re b + im b * im b in
    (Fin ((re a * re b + im a * im b) / m),
     Fin ((im a * re b - re a * im b) / m)).

(** numpy's [q >= v] for a complex [q] and a real [v] (that is [v + 0j]):
    [(qr > v and qi is not NaN) or (qr == v and qi >= 0)]. *)
Definition Cxge (q : xreal * xreal) (v : R) : bool :=
  (xgt (fst q) v && negb (xisnan (snd q))) || (xeq (fst q) v && xge (snd q) 0).

(** What [pca] does with the eigenvalues, whatever their dtype: it adds
    them, sorts them, divides a partial sum by the total and compares the
    quotient with [var]. *)
Class Scalar (S : Type) : Type := {
  s_zero : S;
  s_add : S -> S -> S;
  s_leb : S -> S -> bool;
  s_ratio : Type;
  s_div : S -> S -> s_ratio;
  s_ge : s_ratio -> R -> bool
}.

#[export] Instance Scalar_R : Scalar R := {
  s_zero := 0;
  s_add := Rplus;
  s_leb := Rleb;
  s_ratio := xreal;
  s_div := xdiv;
  s_ge := xge
}.

#[export] Instance Scalar_C : Scalar complex := {
  s_zero := mkC 0 0;
  s_add := Cadd;
  s_leb := Cleb;
  s_ratio := (xreal * xreal)%type;
  s_div := Cxdiv;
  s_ge := Cxge
}.

(* ================================================================= *)
(** ** The selection of components, for either dtype *)

Section Select.

Context {S : Type} {SC : Scalar S}.

(** Insertion of index [i] into a list of indices sorted by their keys. *)
Fixpoint insert_by (keys : list S) (i : nat) (sorted : list nat) : list nat :=
  match sorted with
  | [] => [i]
  | j :: t =>
      if s_leb (nth i keys s_zero) (nth j keys s_zero)
      then i :: j :: t
      else j :: insert_by keys i t
  end.

Definition sort_indices (keys : list S) (l : list nat) : list nat :=
  fold_right (insert_by keys) [] l.

(** [np.argsort(keys)]: the indices of [keys] in ascending order of key. *)
Definition np_argsort (keys : list S) : list nat :=
  sort_indices keys (seq 0 (length keys)).

(** [a[idx]] for an index array [idx]. *)
Definition take (a : list S) (idx : list nat) : list S :=
  map (fun k => nth k a s_zero) idx.

(** [np.sum(a)]. *)
Definition s_sum (a : list S) : S := fold_left s_add a s_zero.

(** [np.cumsum(a)]. *)
Fixpoint cumsum_from (acc : S) (a : list S) : list S :=
  match a with
  | [] => []
  | x :: t => s_add acc x :: cumsum_from (s_add acc x) t
  end.

Definition np_cumsum (a : list S) : list S :=
  match a with
  | [] => []
  | x :: t => x :: cumsum_from x t
  end.

(** The local variables of [pca] after its step 4. *)
Record pca_locals : Type := mkLocals {
  idx : list nat;
  sorted_eigs : list S;
  sorted_W : list (list S);
  total_variance : S;
  cumulative_variance : list S;
  explained_variance_ratio : list s_ratio
}.

Definition pca_steps (Eigs : list S) (W_all : list (list S)) : pca_locals :=
  let idx := rev (np_argsort Eigs) in
  let sorted_eigs := take Eigs idx in
  let sorted_W := map (fun row => take row idx) W_all in
  let total_variance := s_sum sorted_eigs in
  let cumulative_variance := np_cumsum sorted_eigs in
  let explained_variance_ratio :=
    map (fun c => s_div c total_variance) cumulative_variance in
  mkLocals idx sorted_eigs sorted_W total_variance cumulative_variance
           explained_variance_ratio.

End Select.

Arguments pca_locals S {SC}.

(** [np.argmax] of a boolean array: the index of the first largest entry. *)
Fixpoint argmax_from (best : bool) (besti i : nat) (l : list bool) : nat :=
  match l with
  | [] => besti
  | b :: t =>
      if negb best && b
      then argmax_from b i (S i) t
      else argmax_from best besti (S i) t
  end.

Definition np_argmax (l : list bool) : result nat :=
  match l with
  | [] => Raise (ValueError "attempt to get argmax of an empty sequence")
  | b :: t => Ok (argmax_from b 0 1 t)
  end.

(** A 2-dimensional array with entries in [S]. *)
Record array2 (S : Type) : Type := mkArray2 {
  shape2 : nat * nat;
  rows2 : list (list S)
}.

Arguments mkArray2 {S} shape2 rows2.
Arguments shape2 {S} a.
Arguments rows2 {S} a.

(** Steps 5 and 6 of [pca]. *)
Definition select {S : Type} {SC : Scalar S}
    (Eigs : list S) (W_all : list (list S)) (var : R) : result (array2 S) :=
  let st := pca_steps Eigs W_all in
  k <- np_argmax (map (fun q => s_ge q var) (explained_variance_ratio st)) ;;
  let nd := (k + 1)%nat in
  Ok (mkArray2 (length (sorted_W st), length (firstn nd (idx st)))
               (map (firstn nd) (sorted_W st))).

(* ================================================================= *)
(** ** [pca] (0-pca.py) *)

(** The value passed as [var]: an [int] or a [float], or anything else.
    (A NaN or infinite float fails the range test of [pca] like a number
    outside the interval, and is not modelled apart.) *)
Inductive pyvar : Type :=
| VNum (v : R)
| VOther.

(** What [np.cov(X.T)] returns for a numeric [X] of shape [(n, d)]. *)
Inductive cov_out : Type :=
| CovMatrix (d : nat) (C : list (list R))
    (* a finite array of shape [(d, d)] *)
| CovScalar
    (* a 0-dimensional array: [np.cov] ends with [squeeze()], and one
       variable gives a [(1, 1)] result *)
| CovNonFinite (d : nat).
    (* shape [(d, d)], every entry NaN: fewer than two observations make
       the normalisation [1 / (n - 1)] a division by zero *)

(** The arithmetic of [np.cov] on its argument [Xt] of shape [(d, n)], one
    row per variable: subtract the average of each row, multiply by the
    transpose, scale by [1 / (n - 1)]. *)
Definition cov_rows (n d : nat) (Xt : list (list R)) : list (list R) :=
  let avg := map (fun r => np_sum r / INR n) Xt in
  let Xc := map (fun p => map (fun x => x - snd p) (fst p)) (combine Xt avg) in
  let c := np_dot d Xc (transpose n Xc) in
  map (fun r => map (fun x => x * (1 / INR (n - 1))) r) c.

(** The matrix [np.cov(X.T)] computes for a numeric [X] of shape [(n, d)]
    with rows [M], [n >= 2] and [d >= 2]. *)
Definition covariance (n d : nat) (M : list (list R)) : list (list R) :=
  cov_rows n d (transpose d M).

(** [np.cov(X.T)] for a 2-dimensional array [X]. *)
Definition np_cov_T (a : ndarray) : result cov_out :=
  _ <- np_arith a ;;
  let n := nth 0 (shape a) 0%nat in
  let d := nth 1 (shape a) 0%nat in
  if (d =? 0)%nat then Ok (CovMatrix 0 [])
  else if (d =? 1)%nat then Ok CovScalar
  else if (n <? 2)%nat then Ok (CovNonFinite d)
  else Ok (CovMatrix d (covariance n d (rows a))).

(** What [np.linalg.eig] returns: the eigenvalues and the matrix whose
    columns are the eigenvectors, both real or both complex. *)
Inductive eig_out : Type :=
| EigReal (w : list R) (V : list (list R))
| EigComplex (w : list complex) (V : list (list complex)).

(** The weights matrix [pca] returns, of the dtype the eigensolver chose. *)
Inductive weights : Type :=
| WReal (W : array2 R)
| WComplex (W : array2 complex).

Definition wshape (W : weights) : nat * nat :=
  match W with
  | WReal A => shape2 A
  | WComplex A => shape2 A
  end.

(** The number of columns of a weights matrix, [W.shape[1]]. *)
Definition ncols (W : weights) : nat := snd (wshape W).

(** An eigensolver returns [d] eigenvalues and a [d] x [d] matrix for a
    [d] x [d] argument. *)
Definition eig_shapes (eig : list (list R) -> eig_out) : Prop :=
  forall d C, wf_rows d d C ->
    match eig C with
    | EigReal w V => length w = d /\ length V = d /\ Forall (fun r => length r = d) V
    | EigComplex w V => length w = d /\ length V = d /\ Forall (fun r => length r = d) V
    end.

Section Pca.

(** The eigensolver of LAPACK behind [np.linalg.eig], on a finite square
    matrix.  (A solver that does not converge is not modelled.) *)
Variable eig : list (list R) -> eig_out.

(** [np.linalg.eig(C)]: it rejects an array with fewer than two axes and an
    array with a NaN or an infinity. *)
Definition np_linalg_eig (c : cov_out) : result eig_out :=
  match c with
  | CovScalar =>
      Raise (LinAlgError
        "0-dimensional array given. Array must be at least two-dimensional")
  | CovNonFinite _ =>
      Raise (LinAlgError "Array must not contain infs or NaNs")
  | CovMatrix _ C => Ok (eig C)
  end.

Definition pca (X : pyobj) (var : pyvar) : result weights :=
  match X with
  | PyOther => Raise (TypeError "X must be a 2D numpy.ndarray")
  | PyArray a =>
      if negb (length (shape a) =? 2)%nat
      then Raise (TypeError "X must be a 2D numpy.ndarray")
      else
        match var with
        | VOther =>
            Raise (ValueError
              "var must be a float between 0 and 1 (exclusive of 0)")
        | VNum v =>
            if negb (Rltb 0 v && Rleb v 1)
            then Raise (ValueError
              "var must be a float between 0 and 1 (exclusive of 0)")
            else
              C <- np_cov_T a ;;
              e <- np_linalg_eig C ;;
              match e with
              | EigReal Eigs W_all =>
                  W <- select Eigs W_all v ;; Ok (WReal W)
              | EigComplex Eigs W_all =>
                  W <- select Eigs W_all v ;; Ok (WComplex W)
              end
        end
  end.

End Pca.

(* ================================================================= *)
(** ** Two eigensolvers to run the model with *)

(** The identity matrix of size [d]. *)
Definition identity (d : nat) : list (list R) :=
  map (fun i => map (fun j => if (i =? j)%nat then 1 else 0) (seq 0 d)) (seq 0 d).

(** The exact eigendecomposition of a diagonal matrix: the eigenvalues are
    the diagonal entries, the eigenvectors the unit vectors. *)
Definition eig_diagonal (C : list (list R)) : eig_out :=
  EigReal (np_diag (length C) C) (identity (length C)).

(** The same decomposition with rounding noise in the imaginary parts, as a
    floating-point solver for general matrices may return it: numpy then
    hands back complex arrays. *)
Definition eig_noisy (eps : R) (C : list (list R)) : eig_out :=
  EigComplex (map (fun x => mkC x eps) (np_diag (length C) C))
             (map (fun r => map (fun x => mkC x 0) r) (identity (length C))).

(* ================================================================= *)
(** ** Notions the properties are stated with *)

(** The sum of [f 0], ..., [f (n - 1)]. *)
Definition big_sum (n : nat) (f : nat -> R) : R :=
  fold_right (fun i acc => f i + acc) 0 (seq 0 n).

(** The example of the specification: four observations of two features. *)
Definition X_example : list (list R) := [[1; 2]; [3; 4]; [5; 6]; [7; 8]].

(** A 1 x 1 array of strings, such as [np.array([['a']])]. *)
Definition text_row : pyobj := PyArray (mkArray Text [1%nat; 1%nat] []).

(** The two errors [mean_cov] raises itself. *)
Definition mean_cov_TypeError : exn := TypeError "X must be a 2D numpy.ndarray".
Definition mean_cov_ValueError : exn :=
  ValueError "X must contain multiple data points".

(** A call ended with a [TypeError], whatever its message. *)
Definition raises_TypeError {A : Type} (r : result A) : Prop :=
  exists msg, r = Raise (TypeError msg).

(** The matrix [M] with [d] rows and columns is symmetric. *)
Definition symmetric (d : nat) (M : list (list R)) : Prop :=
  forall i j, (i < d)%nat -> (j < d)%nat -> entry M i j = entry M j i.

(** The second example of the specification: a 2 x 2 covariance matrix. *)
Definition C_example : list (list R) := [[4; 2]; [2; 9]].

(** Every diagonal entry of the [d] x [d] matrix [M] is strictly positive. *)
Definition positive_diagonal (d : nat) (M : list (list R)) : Prop :=
  forall i, (i < d)%nat -> 0 < entry M i i.

(** A 1-dimensional array of two strings, such as [np.array(['a', 'b'])]. *)
Definition text_vector : pyobj := PyArray (mkArray Text [2%nat] []).

(** [C] is an ndarray of a numeric dtype. *)
Definition numeric_array (C : pyobj) : Prop :=
  exists a, C = PyArray a /\ dtype_of a = Numeric.

(** The two errors [correlation] raises itself. *)
Definition correlation_TypeError : exn := TypeError "C must be a numpy.ndarray".
Definition correlation_ValueError : exn :=
  ValueError "C must be a 2D square matrix".

(** The rows [correlation] computes from the rows [M] of a [d] x [d] array. *)
Definition correlation_rows (d : nat) (M : list (list R)) : list (list R) :=
  np_fill_diagonal
    (np_divide M (np_outer (np_sqrt (np_diag d M)) (np_sqrt (np_diag d M)))) 1.

(** The average of column [j] of a matrix with [n] rows. *)
Definition column_mean (n : nat) (M : list (list R)) (j : nat) : R :=
  big_sum n (fun i => entry M i j) / INR n.

(** The unbiased sample covariance of columns [j] and [k]. *)
Definition unbiased_cov (n : nat) (M : list (list R)) (j k : nat) : R :=
  big_sum n (fun i =>
    (entry M i j - column_mean n M j) * (entry M i k - column_mean n M k))
  / (INR n - 1).

(** The index of the first [true] of a boolean array. *)
Fixpoint first_true (l : list bool) : option nat :=
  match l with
  | [] => None
  | true :: _ => Some 0%nat
  | false :: t => option_map S (first_true t)
  end.

(** The laws of exact arithmetic that the selection of components relies
    on; they hold for real and for complex eigenvalues. *)
Class ScalarLaws (T : Type) {SC : Scalar T} : Prop := {
  s_add_zero_l : forall x : T, s_add s_zero x = x;
  s_leb_total : forall a b : T, s_leb a b = true \/ s_leb b a = true;
  s_zero_dec : forall t : T, t = s_zero \/ t <> s_zero;
  s_ge_mono : forall (q : s_ratio) (v1 v2 : R),
      v1 <= v2 -> s_ge q v2 = true -> s_ge q v1 = true;
  s_ge_full : forall (t : T) (v : R),
      t <> s_zero -> v <= 1 -> s_ge (s_div t t) v = true;
  s_ge_degenerate : forall (c : T) (v1 v2 : R),
      s_ge (s_div c s_zero) v1 = s_ge (s_div c s_zero) v2
}.

Section SelectionSpec.

Context {T : Type} {SC : Scalar T}.

(** Entry [(i, j)] of a matrix of scalars. *)
Definition s_entry (M : list (list T)) (i j : nat) : T :=
  nth j (nth i M []) s_zero.

(** The keys of [l] do not increase from one position to the next. *)
Definition descending (l : list T) : Prop :=
  forall k, (k + 1 < length l)%nat ->
    s_leb (nth (k + 1) l s_zero) (nth k l s_zero) = true.

(** The [m] leading components reach the variance target [v]: the sum of
    the first [m] sorted eigenvalues divided by the sum of all of them is
    [>= v]. *)
Definition reaches (sorted : list T) (v : R) (m : nat) : Prop :=
  s_ge (s_div (s_sum (firstn m sorted)) (s_sum sorted)) v = true.

(** [nd] is the smallest count of leading components that reaches [v]. *)
Definition smallest_reaching (sorted : list T) (v : R) (nd : nat) : Prop :=
  reaches sorted v nd
  /\ forall m, (1 <= m < nd)%nat -> ~ reaches sorted v m.

(** [A] holds, as its columns, the first [nd] eigenvectors (columns of [V])
    in the order [order] of descending eigenvalue [w]. *)
Definition leading_columns (w : list T) (V : list (list T)) (d : nat)
    (order : list nat) (nd : nat) (A : array2 T) : Prop :=
  Permutation order (seq 0 d)
  /\ descending (take w order)
  /\ shape2 A = (d, nd)
  /\ wf_rows d nd (rows2 A)
  /\ forall i k, (i < d)%nat -> (k < nd)%nat ->
       s_entry (rows2 A) i k = s_entry V i (nth k order 0%nat).

End SelectionSpec.

(** The 2 x 2 matrix of zeros, a sample with no variance at all. *)
Definition X_zero : list (list R) := [[0; 0]; [0; 0]].

(** A centred sample of two observations of two features; its covariance
    matrix is diagonal, with eigenvalues 2 and 0. *)
Definition X_line : list (list R) := [[1; 0]; [-1; 0]].

(** A sample with two observations and no feature, [np.empty((2, 0))]. *)
Definition X_no_feature : list (list R) := [[]; []].

(** The two errors [pca] raises itself. *)
Definition pca_TypeError : exn := TypeError "X must be a 2D numpy.ndarray".
Definition pca_ValueError : exn :=
  ValueError "var must be a float between 0 and 1 (exclusive of 0)".

(** [var] is an [int] or [float] in the interval (0, 1]. *)
Definition valid_var (var : pyvar) : Prop :=
  exists v, var = VNum v /\ 0 < v <= 1.

(** The eigenvalues as the eigensolver returned them, and as [pca] holds
    them after sorting (a real eigenvalue [x] read as [x + 0j]). *)
Definition eigs_returned (e : eig_out) : list complex :=
  match e with
  | EigReal w _ => map (fun x => mkC x 0) w
  | EigComplex w _ => w
  end.

Definition eigs_sorted (e : eig_out) : list complex :=
  match e with
  | EigReal w V => map (fun x => mkC x 0) (sorted_eigs (pca_steps w V))
  | EigComplex w V => sorted_eigs (pca_steps w V)
  end.

(** A complex number with no imaginary part. *)
Definition is_real (z : complex) : Prop := im z = 0.

(** The boolean array [explained_variance_ratio >= var] of step 5. *)
Definition threshold_flags {T : Type} {SC : Scalar T}
    (w : list T) (V : list (list T)) (v : R) : list bool :=
  map (fun q => s_ge q v) (explained_variance_ratio (pca_steps w V)).

(** What [pca] promises of the array [A] it builds from the eigenvalues [w]
    and the eigenvectors [V] of a [d] x [d] covariance: [A] holds the first
    [nd] eigenvectors in descending order of eigenvalue, and [nd] is the
    smallest count of leading components that reaches [v] whenever some
    count does (as is the case when the eigenvalues do not sum to zero),
    and 1 when none does. *)
Definition components_selected {T : Type} {SC : Scalar T}
    (w : list T) (V : list (list T)) (d : nat) (v : R) (A : array2 T) : Prop :=
  exists (order : list nat) (nd : nat),
    leading_columns w V d order nd A
    /\ (1 <= nd <= d)%nat
    /\ ((exists m, (1 <= m <= d)%nat /\ reaches (take w order) v m) ->
        smallest_reaching (take w order) v nd)
    /\ (s_sum (take w order) <> s_zero -> smallest_reaching (take w order) v nd)
    /\ ((forall m, (1 <= m <= d)%nat -> ~ reaches (take w order) v m) ->
        nd = 1%nat).

(* ================================================================= *)
(** ** Notions of the further properties *)

(** [X + c]: the row [c] added to every row of [X]. *)
Definition shift_rows (c : list R) (M : list (list R)) : list (list R) :=
  map (fun r => map (fun p => fst p + snd p) (combine r c)) M.

(** [a * X]: every entry of [X] multiplied by the scalar [a]. *)
Definition scale_rows (a : R) (M : list (list R)) : list (list R) :=
  map (fun r => map (fun x => a * x) r) M.

(** The covariance rows [mean_cov] computes from the rows [M] of an array of
    shape [(n, d)]. *)
Definition mean_cov_rows (n d : nat) (M : list (list R)) : list (list R) :=
  div_scalar
    (np_dot d (transpose d (sub_broadcast M (np_mean_axis0 n d M)))
            (sub_broadcast M (np_mean_axis0 n d M)))
    (INR (n - 1)).

(** The answer of the check that ends the script of 0-pca.py:
    ['Yes' if d_80 <= d_95 <= d_99 else 'No']. *)
Definition main_check (d_80 d_95 d_99 : nat) : string :=
  if ((d_80 <=? d_95)%nat && (d_95 <=? d_99)%nat)%bool then "Yes" else "No".

(** A centred sample of four observations of two uncorrelated features;
    its covariance matrix is diagonal, with both variances 4/3. *)
Definition X_square : list (list R) := [[1; 1]; [-1; 1]; [1; -1]; [-1; -1]].

(* ================================================================= *)
(** * Properties *)

(** ** Lists and sums *)

(** Equality of two arrays written out entry by entry. *)
Ltac entries_eq :=
  repeat match goal with
         | |- Ok _ = Ok _ => apply f_equal
         | |- mkArray _ _ _ = mkArray _ _ _ => apply f_equal
         | |- (_, _) = (_, _) => apply f_equal2
         | |- _ :: _ = _ :: _ => apply f_equal2
         | |- @nil _ = @nil _ => reflexivity
         | |- @eq R _ _ => field
         end.

Lemma nth_map_lt (A B : Type) (f : A -> B) (l : list A) (i : nat) (a : A) (b : B) :
  (i < length l)%nat -> nth i (map f l) b = f (nth i l a).
Proof.
  intros Hi.
  rewrite (nth_indep (map f l) b (f a)) by (rewrite length_map; exact Hi).
  apply map_nth.
Qed.

Lemma nth_map_seq (B : Type) (f : nat -> B) (n i : nat) (b : B) :
  (i < n)%nat -> nth i (map f (seq 0 n)) b = f i.
Proof.
  intros Hi.
  rewrite (nth_map_lt _ _ f (seq 0 n) i 0%nat b) by (rewrite length_seq; exact Hi).
  now rewrite seq_nth.
Qed.

Lemma map_as_seq (A B : Type) (g : A -> B) (l : list A) (a : A) :
  map g l = map (fun i => g (nth i l a)) (seq 0 (length l)).
Proof.
  apply (nth_ext _ _ (g a) (g a)).
  - now rewrite !length_map, length_seq.
  - intros i Hi. rewrite length_map in Hi.
    rewrite (nth_map_lt _ _ g l i a (g a)) by exact Hi.
    now rewrite nth_map_seq.
Qed.

Lemma combine_map_seq (A B : Type) (f : nat -> A) (g : nat -> B) (l : list nat) :
  combine (map f l) (map g l) = map (fun i => (f i, g i)) l.
Proof. induction l as [| x l IH]; simpl; [reflexivity | now rewrite IH]. Qed.

Lemma fold_left_Rplus (l : list R) (a : R) :
  fold_left Rplus l a = a + fold_left Rplus l 0.
Proof.
  revert a. induction l as [| x l IH]; intros a; simpl.
  - lra.
  - rewrite (IH (a + x)), (IH (0 + x)). lra.
Qed.

Lemma np_sum_cons (x : R) (l : list R) : np_sum (x :: l) = x + np_sum l.
Proof.
  unfold np_sum. simpl. rewrite fold_left_Rplus. lra.
Qed.

Lemma np_sum_map (f : nat -> R) (l : list nat) :
  np_sum (map f l) = fold_right (fun i acc => f i + acc) 0 l.
Proof.
  induction l as [| x l IH]; simpl.
  - reflexivity.
  - now rewrite np_sum_cons, IH.
Qed.

Lemma np_sum_seq (f : nat -> R) (n : nat) :
  np_sum (map f (seq 0 n)) = big_sum n f.
Proof. apply np_sum_map. Qed.

Lemma big_sum_ext (n : nat) (f g : nat -> R) :
  (forall i, (i < n)%nat -> f i = g i) -> big_sum n f = big_sum n g.
Proof.
  intros H. unfold big_sum.
  assert (Hin : forall i, In i (seq 0 n) -> f i = g i).
  { intros i Hi. apply in_seq in Hi. apply H. lia. }
  induction (seq 0 n) as [| x l IH]; simpl.
  - reflexivity.
  - rewrite (Hin x) by now left. rewrite IH; [reflexivity |].
    intros i Hi. apply Hin. now right.
Qed.

(** ** Matrices given by their rows *)

Lemma wf_rows_nth (n d : nat) (M : list (list R)) (i : nat) :
  wf_rows n d M -> (i < n)%nat -> length (nth i M []) = d.
Proof.
  intros [Hn Hd] Hi. rewrite Forall_forall in Hd.
  apply Hd, nth_In. lia.
Qed.

Lemma column_seq (n : nat) (M : list (list R)) (j : nat) :
  length M = n -> column j M = map (fun i => entry M i j) (seq 0 n).
Proof.
  intros <-. unfold column. now rewrite (map_as_seq _ _ _ M []).
Qed.

Lemma entry_build (f : nat -> nat -> R) (n d i j : nat) :
  (i < n)%nat -> (j < d)%nat ->
  entry (map (fun i => map (fun j => f i j) (seq 0 d)) (seq 0 n)) i j = f i j.
Proof.
  intros Hi Hj. unfold entry.
  rewrite (nth_map_seq _ _ n i [] Hi). now rewrite nth_map_seq.
Qed.

Lemma inner_seq (f g : nat -> R) (n : nat) :
  inner (map f (seq 0 n)) (map g (seq 0 n)) = big_sum n (fun i => f i * g i).
Proof.
  unfold inner. rewrite combine_map_seq, map_map. simpl.
  apply np_sum_seq.
Qed.

Lemma sub_row_nth (r m : list R) (d j : nat) :
  length r = d -> length m = d -> (j < d)%nat ->
  nth j (map (fun p => fst p - snd p) (combine r m)) 0 = nth j r 0 - nth j m 0.
Proof.
  intros Hr Hm Hj.
  rewrite (nth_map_lt _ _ _ (combine r m) j (0, 0) 0).
  - now rewrite combine_nth by lia.
  - rewrite length_combine. lia.
Qed.

Lemma entry_sub_broadcast (n d : nat) (M : list (list R)) (m : list R) (i j : nat) :
  wf_rows n d M -> length m = d -> (i < n)%nat -> (j < d)%nat ->
  entry (sub_broadcast M [m]) i j = entry M i j - nth j m 0.
Proof.
  intros HM Hm Hi Hj. unfold entry, sub_broadcast. simpl.
  rewrite (nth_map_lt _ _ _ M i [] []) by (destruct HM; lia).
  apply (sub_row_nth _ _ d); auto.
  now apply (wf_rows_nth n).
Qed.

(** ** [mean_cov] *)

(** What [mean_cov] returns on a numeric array with two axes and at least
    two rows. *)
Lemma mean_cov_unfold (n d : nat) (M : list (list R)) :
  (2 <= n)%nat ->
  mean_cov (matrix_obj n d M) =
  Ok (mkArray Numeric [1%nat; d] (np_mean_axis0 n d M),
      mkArray Numeric [d; d]
        (div_scalar
           (np_dot d (transpose d (sub_broadcast M (np_mean_axis0 n d M)))
                   (sub_broadcast M (np_mean_axis0 n d M)))
           (INR (n - 1)))).
Proof.
  intros Hn. unfold mean_cov, matrix_obj, ndim. simpl.
  destruct (Nat.ltb_spec n 2) as [Hlt | _]; [lia | reflexivity].
Qed.

Lemma mean_row_length (n d : nat) (M : list (list R)) :
  length (nth 0 (np_mean_axis0 n d M) []) = d.
Proof. simpl. now rewrite length_map, length_seq. Qed.

Lemma entry_mean (n d : nat) (M : list (list R)) (j : nat) :
  length M = n -> (j < d)%nat ->
  entry (np_mean_axis0 n d M) 0 j = big_sum n (fun i => entry M i j) / INR n.
Proof.
  intros Hn Hj. unfold entry, np_mean_axis0. simpl.
  rewrite nth_map_seq by exact Hj.
  now rewrite (column_seq n), np_sum_seq.
Qed.

Lemma entry_centered (n d : nat) (M : list (list R)) (i j : nat) :
  wf_rows n d M -> (i < n)%nat -> (j < d)%nat ->
  entry (sub_broadcast M (np_mean_axis0 n d M)) i j =
  entry M i j - entry (np_mean_axis0 n d M) 0 j.
Proof.
  intros HM Hi Hj. unfold np_mean_axis0.
  rewrite (entry_sub_broadcast n d) by
    (auto; now rewrite length_map, length_seq).
  reflexivity.
Qed.

Lemma sub_broadcast_length (M b : list (list R)) :
  length (sub_broadcast M b) = length M.
Proof. unfold sub_broadcast. apply length_map. Qed.

(** Entry [(j, k)] of [np.dot(A.T, A)] is the inner product of columns [j]
    and [k] of [A]. *)
Lemma entry_gram (n d : nat) (A : list (list R)) (j k : nat) :
  length A = n -> (j < d)%nat -> (k < d)%nat ->
  entry (np_dot d (transpose d A) A) j k =
  big_sum n (fun i => entry A i j * entry A i k).
Proof.
  intros Hn Hj Hk. unfold np_dot, transpose.
  rewrite map_map, entry_build by assumption.
  now rewrite !(column_seq n), inner_seq.
Qed.

Lemma entry_div_scalar (A : list (list R)) (s : R) (i j : nat) :
  entry (div_scalar A s) i j = entry A i j / s.
Proof.
  unfold entry, div_scalar.
  destruct (Nat.lt_ge_cases i (length A)) as [Hi | Hi].
  - rewrite (nth_map_lt _ _ _ A i [] []) by exact Hi.
    destruct (Nat.lt_ge_cases j (length (nth i A []))) as [Hj | Hj].
    + now rewrite (nth_map_lt _ _ _ _ j 0 0).
    + rewrite !nth_overflow; try lra; try assumption.
      now rewrite length_map.
  - rewrite (nth_overflow (map _ A)) by now rewrite length_map.
    rewrite (nth_overflow A) by assumption. destruct j; simpl; lra.
Qed.

Lemma big_sum_scal (n : nat) (f : nat -> R) (s : R) :
  big_sum n f / s = big_sum n (fun i => f i / s).
Proof.
  unfold big_sum. induction (seq 0 n) as [| x l IH]; simpl.
  - lra.
  - rewrite <- IH. unfold Rdiv. ring.
Qed.

(** The rows of a matrix built row by row and column by column. *)
Lemma wf_rows_build (A : Type) (f : A -> nat -> R) (l : list A) (d : nat) :
  wf_rows (length l) d (map (fun a => map (f a) (seq 0 d)) l).
Proof.
  split.
  - apply length_map.
  - apply Forall_forall. intros r Hr. apply in_map_iff in Hr.
    destruct Hr as (a & <- & _). now rewrite length_map, length_seq.
Qed.

Lemma wf_rows_div_scalar (n d : nat) (A : list (list R)) (s : R) :
  wf_rows n d A -> wf_rows n d (div_scalar A s).
Proof.
  intros [Hn Hd]. split.
  - unfold div_scalar. now rewrite length_map.
  - apply Forall_forall. intros r Hr. unfold div_scalar in Hr.
    apply in_map_iff in Hr. destruct Hr as (r0 & <- & Hr0).
    rewrite length_map. rewrite Forall_forall in Hd. now apply Hd.
Qed.

Lemma wf_rows_gram (d : nat) (A : list (list R)) :
  wf_rows d d (np_dot d (transpose d A) A).
Proof.
  unfold np_dot, transpose.
  pose proof (wf_rows_build _ (fun (ra : list R) k => inner ra (column k A))
                (map (fun j => column j A) (seq 0 d)) d) as H.
  now rewrite length_map, length_seq in H.
Qed.

Lemma mean_cov_example :
  mean_cov (matrix_obj 4 2 X_example) =
  Ok (mkArray Numeric [1%nat; 2%nat] [[4; 5]],
      mkArray Numeric [2%nat; 2%nat] [[20 / 3; 20 / 3]; [20 / 3; 20 / 3]]).
Proof.
  rewrite mean_cov_unfold by lia.
  unfold X_example, np_mean_axis0, sub_broadcast, transpose, np_dot,
    div_scalar, inner, column, np_sum.
  simpl.
  entries_eq.
Qed.

Lemma wf_X_example : wf_rows 4 2 X_example.
Proof. split; [reflexivity | repeat constructor]. Qed.

(** C2.  On every numeric matrix [X] with [n >= 2] rows and [d] columns,
    [mean_cov] returns a 1 x d mean whose entry [j] is the average of
    column [j] of [X], and a d x d covariance whose entry [(j, k)] is the sum
    over the rows [i] of [(X[i][j] - mean[j]) * (X[i][k] - mean[k])], divided
    by [n - 1]: the entries of (X - mean)^T (X - mean) / (n - 1).  For
    X = [[1,2],[3,4],[5,6],[7,8]] the mean is [4, 5] and every entry of the
    covariance is 20/3. *)
Theorem mean_cov_correct :
  (forall (n d : nat) (M : list (list R)),
      wf_rows n d M -> (2 <= n)%nat ->
      exists mean cov : ndarray,
        mean_cov (matrix_obj n d M) = Ok (mean, cov)
        /\ shape mean = [1%nat; d] /\ wf_rows 1 d (rows mean)
        /\ shape cov = [d; d] /\ wf_rows d d (rows cov)
        /\ (forall j, (j < d)%nat ->
              entry (rows mean) 0 j = big_sum n (fun i => entry M i j) / INR n)
        /\ (forall j k, (j < d)%nat -> (k < d)%nat ->
              entry (rows cov) j k =
              big_sum n (fun i =>
                (entry M i j - entry (rows mean) 0 j)
                * (entry M i k - entry (rows mean) 0 k))
              / (INR n - 1)))
  /\ mean_cov (matrix_obj 4 2 X_example) =
     Ok (mkArray Numeric [1%nat; 2%nat] [[4; 5]],
         mkArray Numeric [2%nat; 2%nat] [[20 / 3; 20 / 3]; [20 / 3; 20 / 3]]).
Proof.
  split; [| exact mean_cov_example].
  intros n d M HM Hn.
  eexists. eexists. split; [apply mean_cov_unfold; exact Hn |].
  simpl.
  split; [reflexivity |].
  split; [split; [reflexivity | repeat constructor;
                  now rewrite length_map, length_seq] |].
  split; [reflexivity |].
  split; [apply wf_rows_div_scalar, wf_rows_gram |].
  split.
  - intros j Hj. apply entry_mean; [apply HM | exact Hj].
  - intros j k Hj Hk.
    rewrite entry_div_scalar.
    rewrite (entry_gram n) by
      (auto; rewrite sub_broadcast_length; apply HM).
    rewrite minus_INR by lia. simpl.
    f_equal. apply big_sum_ext. intros i Hi.
    now rewrite !(entry_centered n d) by assumption.
Qed.

Lemma mean_cov_correct_witness :
  exists mean cov : ndarray,
    mean_cov (matrix_obj 4 2 X_example) = Ok (mean, cov)
    /\ shape mean = [1%nat; 2%nat] /\ wf_rows 1 2 (rows mean)
    /\ shape cov = [2%nat; 2%nat] /\ wf_rows 2 2 (rows cov)
    /\ (forall j, (j < 2)%nat ->
          entry (rows mean) 0 j
          = big_sum 4 (fun i => entry X_example i j) / INR 4)
    /\ (forall j k, (j < 2)%nat -> (k < 2)%nat ->
          entry (rows cov) j k =
          big_sum 4 (fun i =>
            (entry X_example i j - entry (rows mean) 0 j)
            * (entry X_example i k - entry (rows mean) 0 k))
          / (INR 4 - 1)).
Proof.
  apply (proj1 mean_cov_correct 4%nat 2%nat X_example).
  - exact wf_X_example.
  - lia.
Defined.

(** ** The checks of [mean_cov] *)

Lemma mean_cov_TypeError_iff (X : pyobj) :
  mean_cov X = Raise mean_cov_TypeError <-> ~ array_2d X.
Proof.
  unfold array_2d, mean_cov_TypeError. destruct X as [a |]; simpl.
  - destruct (Nat.eqb_spec (ndim a) 2) as [E | E]; simpl.
    + split.
      * destruct (nth 0 (shape a) 0%nat <? 2)%nat; [discriminate |].
        unfold np_arith. destruct (dtype_of a); simpl; discriminate.
      * intros H. exfalso. apply H. now exists a.
    + split; [| reflexivity].
      intros _ (a' & Ha & Hd). injection Ha as <-. contradiction.
  - split; [| reflexivity]. intros _ (a' & Ha & _). discriminate.
Qed.

Lemma mean_cov_ValueError_iff (X : pyobj) :
  mean_cov X = Raise mean_cov_ValueError <->
  exists a, X = PyArray a /\ ndim a = 2%nat /\ (nth 0 (shape a) 0 < 2)%nat.
Proof.
  unfold mean_cov_ValueError. destruct X as [a |]; simpl.
  - destruct (Nat.eqb_spec (ndim a) 2) as [E | E]; simpl.
    + destruct (Nat.ltb_spec (nth 0 (shape a) 0%nat) 2) as [L | L].
      * split; [| reflexivity]. intros _. now exists a.
      * split.
        -- unfold np_arith. destruct (dtype_of a); simpl; discriminate.
        -- intros (a' & Ha & _ & Hn). injection Ha as <-. lia.
    + split; [discriminate |].
      intros (a' & Ha & Hd & _). injection Ha as <-. contradiction.
  - split; [discriminate |]. intros (a' & Ha & _). discriminate.
Qed.

(** [mean_cov] raises no [ValueError] but its own. *)
Lemma mean_cov_ValueError_own (X : pyobj) (msg : string) :
  mean_cov X = Raise (ValueError msg) -> ValueError msg = mean_cov_ValueError.
Proof.
  destruct X as [a |]; simpl; [| discriminate].
  destruct (negb (ndim a =? 2)%nat); [discriminate |].
  destruct (nth 0 (shape a) 0%nat <? 2)%nat.
  - intros H. now injection H as <-.
  - unfold np_arith. destruct (dtype_of a); simpl; discriminate.
Qed.

(** The two checks read the type and the shape of the argument, and nothing
    else: they are decided before any entry is looked at. *)
Lemma mean_cov_checks_first (dt dt' : dtype) (sh : list nat)
    (M M' : list (list R)) (e : exn) :
  e = mean_cov_TypeError \/ e = mean_cov_ValueError ->
  mean_cov (PyArray (mkArray dt sh M)) = Raise e ->
  mean_cov (PyArray (mkArray dt' sh M')) = Raise e.
Proof.
  unfold mean_cov, ndim. simpl.
  destruct (negb (length sh =? 2)%nat); [auto |].
  destruct (nth 0 sh 0%nat <? 2)%nat; [auto |].
  intros [-> | ->]; unfold np_arith; destruct dt; simpl; discriminate.
Qed.

Lemma mean_cov_one_row (dt : dtype) (d : nat) (M : list (list R)) :
  mean_cov (PyArray (mkArray dt [1%nat; d] M)) = Raise mean_cov_ValueError.
Proof. reflexivity. Qed.

Lemma text_row_not_numeric : ~ numeric_matrix text_row.
Proof. intros (n & d & M & H & _). discriminate. Qed.

(** C7, amended.  [mean_cov] raises its [TypeError] exactly when its input
    is not an ndarray with two axes (the dtype is not inspected), and its
    [ValueError] exactly when the input is an ndarray with two axes, of
    whatever dtype, and fewer than two rows; it raises no other
    [ValueError]; both checks are decided from the type and the shape alone,
    before any computation; a matrix of one row raises the [ValueError];
    and on a numeric matrix with at least two rows it returns. *)
Theorem mean_cov_validation :
  (forall X, mean_cov X = Raise mean_cov_TypeError <-> ~ array_2d X)
  /\ (forall X, mean_cov X = Raise mean_cov_ValueError <->
        exists a, X = PyArray a /\ ndim a = 2%nat
                  /\ (nth 0 (shape a) 0 < 2)%nat)
  /\ (forall X msg, mean_cov X = Raise (ValueError msg) ->
        ValueError msg = mean_cov_ValueError)
  /\ (forall dt dt' sh M M' e,
        e = mean_cov_TypeError \/ e = mean_cov_ValueError ->
        mean_cov (PyArray (mkArray dt sh M)) = Raise e ->
        mean_cov (PyArray (mkArray dt' sh M')) = Raise e)
  /\ (forall dt d M,
        mean_cov (PyArray (mkArray dt [1%nat; d] M)) = Raise mean_cov_ValueError)
  /\ (forall n d M, (2 <= n)%nat ->
        exists mean cov, mean_cov (matrix_obj n d M) = Ok (mean, cov)).
Proof.
  split; [exact mean_cov_TypeError_iff |].
  split; [exact mean_cov_ValueError_iff |].
  split; [exact mean_cov_ValueError_own |].
  split; [exact mean_cov_checks_first |].
  split; [exact mean_cov_one_row |].
  intros n d M Hn. rewrite mean_cov_unfold by exact Hn. eauto.
Qed.

Lemma mean_cov_validation_witness :
  mean_cov PyOther = Raise mean_cov_TypeError
  /\ mean_cov (matrix_obj 1 2 [[1; 2]]) = Raise mean_cov_ValueError
  /\ exists mean cov, mean_cov (matrix_obj 4 2 X_example) = Ok (mean, cov).
Proof.
  destruct mean_cov_validation as (HT & HV & _ & _ & _ & HR).
  split; [| split].
  - apply HT. intros (a & Ha & _). discriminate.
  - apply HV. eexists. split; [reflexivity |]. split; [reflexivity | simpl; lia].
  - apply HR. lia.
Defined.

(** C7 as stated fails: a 1 x 1 array of strings is not a 2-dimensional
    numeric matrix, and [mean_cov] ends with its [ValueError], not with a
    [TypeError]. *)
Lemma mean_cov_text_row :
  ~ numeric_matrix text_row
  /\ mean_cov text_row = Raise mean_cov_ValueError
  /\ ~ (raises_TypeError (mean_cov text_row) <-> ~ numeric_matrix text_row).
Proof.
  split; [exact text_row_not_numeric |].
  split; [reflexivity |].
  intros [_ H]. destruct (H text_row_not_numeric) as [msg Hm]. discriminate.
Qed.

(** ** [correlation] *)

Lemma rows_ext (n d : nat) (A B : list (list R)) :
  wf_rows n d A -> wf_rows n d B ->
  (forall i j, (i < n)%nat -> (j < d)%nat -> entry A i j = entry B i j) ->
  A = B.
Proof.
  intros HA HB H.
  apply (nth_ext _ _ [] []).
  - destruct HA, HB. congruence.
  - intros i Hi. assert (Hi' : (i < n)%nat) by (destruct HA; lia).
    apply (nth_ext _ _ 0 0).
    + now rewrite (wf_rows_nth n d A), (wf_rows_nth n d B).
    + intros j Hj. rewrite (wf_rows_nth n d A) in Hj by assumption.
      now apply H.
Qed.

Lemma nth_set_nth (l : list R) (i j : nat) (v : R) :
  nth j (set_nth i v l) 0 =
  if ((j =? i)%nat && (i <? length l)%nat)%bool then v else nth j l 0.
Proof.
  revert i j. induction l as [| x l IH]; intros i j; simpl.
  - destruct j, i; simpl; rewrite ?andb_false_r; reflexivity.
  - destruct i as [| i]; destruct j as [| j]; simpl; try reflexivity.
    rewrite IH. reflexivity.
Qed.

Lemma length_set_nth (l : list R) (i : nat) (v : R) :
  length (set_nth i v l) = length l.
Proof.
  revert i. induction l as [| x l IH]; intros i; simpl.
  - reflexivity.
  - destruct i; simpl; [reflexivity | now rewrite IH].
Qed.

Lemma nth_fill_diagonal (A : list (list R)) (v : R) (i : nat) :
  (i < length A)%nat ->
  nth i (np_fill_diagonal A v) [] = set_nth i v (nth i A []).
Proof.
  intros Hi. unfold np_fill_diagonal.
  rewrite (nth_map_lt _ _ _ _ i (0%nat, []) [])
    by (rewrite length_combine, length_seq; lia).
  rewrite combine_nth by now rewrite length_seq.
  simpl. now rewrite seq_nth.
Qed.

Lemma wf_rows_fill_diagonal (n d : nat) (A : list (list R)) (v : R) :
  wf_rows n d A -> wf_rows n d (np_fill_diagonal A v).
Proof.
  intros [Hn Hd]. split.
  - unfold np_fill_diagonal.
    rewrite length_map, length_combine, length_seq. lia.
  - apply Forall_forall. intros r Hr.
    apply (In_nth _ _ []) in Hr. destruct Hr as (i & Hi & <-).
    assert (Hi' : (i < length A)%nat).
    { unfold np_fill_diagonal in Hi.
      rewrite length_map, length_combine, length_seq in Hi. lia. }
    rewrite nth_fill_diagonal, length_set_nth by exact Hi'.
    apply (wf_rows_nth n); [now split | lia].
Qed.

Lemma entry_fill_diagonal (n d : nat) (A : list (list R)) (v : R) (i j : nat) :
  wf_rows n d A -> (i < n)%nat -> (j < d)%nat ->
  entry (np_fill_diagonal A v) i j = if (i =? j)%nat then v else entry A i j.
Proof.
  intros HA Hi Hj. unfold entry.
  rewrite nth_fill_diagonal by (destruct HA; lia).
  rewrite nth_set_nth, (wf_rows_nth n d A) by assumption.
  rewrite Nat.eqb_sym.
  destruct (Nat.eqb_spec i j) as [-> | _]; simpl; [| reflexivity].
  destruct (Nat.ltb_spec j d); [reflexivity | lia].
Qed.

Lemma nth_divide (A B : list (list R)) (i : nat) :
  length A = length B -> (i < length A)%nat ->
  nth i (np_divide A B) [] =
  map (fun q => fst q / snd q) (combine (nth i A []) (nth i B [])).
Proof.
  intros HAB HA. unfold np_divide.
  rewrite (nth_map_lt _ _ _ _ i ([], []) [])
    by (rewrite length_combine; lia).
  now rewrite combine_nth by exact HAB.
Qed.

Lemma entry_divide (n d : nat) (A B : list (list R)) (i j : nat) :
  wf_rows n d A -> wf_rows n d B -> (i < n)%nat -> (j < d)%nat ->
  entry (np_divide A B) i j = entry A i j / entry B i j.
Proof.
  intros HA HB Hi Hj. unfold entry.
  rewrite nth_divide by (destruct HA, HB; lia).
  pose proof (wf_rows_nth n d A i HA Hi) as LA.
  pose proof (wf_rows_nth n d B i HB Hi) as LB.
  rewrite (nth_map_lt _ _ _ _ j (0, 0) 0)
    by (rewrite length_combine; lia).
  now rewrite combine_nth by lia.
Qed.

Lemma wf_rows_divide (n d : nat) (A B : list (list R)) :
  wf_rows n d A -> wf_rows n d B -> wf_rows n d (np_divide A B).
Proof.
  intros HA HB. split.
  - unfold np_divide. rewrite length_map, length_combine.
    destruct HA, HB. lia.
  - apply Forall_forall. intros r Hr.
    apply (In_nth _ _ []) in Hr. destruct Hr as (i & Hi & <-).
    assert (Hi' : (i < n)%nat).
    { unfold np_divide in Hi. rewrite length_map, length_combine in Hi.
      destruct HA, HB. lia. }
    rewrite nth_divide by (destruct HA, HB; lia).
    rewrite length_map, length_combine.
    rewrite (wf_rows_nth n d A), (wf_rows_nth n d B) by assumption. lia.
Qed.

Lemma wf_rows_outer (u v : list R) :
  wf_rows (length u) (length v) (np_outer u v).
Proof.
  split.
  - apply length_map.
  - apply Forall_forall. intros r Hr. apply in_map_iff in Hr.
    destruct Hr as (x & <- & _). apply length_map.
Qed.

Lemma entry_outer (u v : list R) (i j : nat) :
  (i < length u)%nat -> (j < length v)%nat ->
  entry (np_outer u v) i j = nth i u 0 * nth j v 0.
Proof.
  intros Hi Hj. unfold entry, np_outer.
  rewrite (nth_map_lt _ _ _ u i 0 []) by exact Hi.
  now rewrite (nth_map_lt _ _ _ v j 0 0).
Qed.

Lemma length_std_devs (d : nat) (M : list (list R)) :
  length (np_sqrt (np_diag d M)) = d.
Proof. unfold np_sqrt, np_diag. now rewrite !length_map, length_seq. Qed.

Lemma nth_std_devs (d : nat) (M : list (list R)) (i : nat) :
  (i < d)%nat -> nth i (np_sqrt (np_diag d M)) 0 = sqrt (entry M i i).
Proof.
  intros Hi. unfold np_sqrt, np_diag. rewrite map_map.
  now rewrite nth_map_seq.
Qed.

(** What [correlation] returns on a square numeric array. *)
Lemma correlation_unfold (d : nat) (M : list (list R)) :
  correlation (matrix_obj d d M) =
  Ok (mkArray Numeric [d; d] (correlation_rows d M)).
Proof.
  unfold correlation, matrix_obj, ndim. simpl.
  now rewrite Nat.eqb_refl.
Qed.

Lemma wf_correlation_rows (d : nat) (M : list (list R)) :
  wf_rows d d M -> wf_rows d d (correlation_rows d M).
Proof.
  intros HM. unfold correlation_rows.
  apply wf_rows_fill_diagonal, wf_rows_divide; [exact HM |].
  pose proof (wf_rows_outer (np_sqrt (np_diag d M)) (np_sqrt (np_diag d M))) as H.
  now rewrite length_std_devs in H.
Qed.

Lemma entry_correlation_rows (d : nat) (M : list (list R)) (i j : nat) :
  wf_rows d d M -> (i < d)%nat -> (j < d)%nat ->
  entry (correlation_rows d M) i j =
  if (i =? j)%nat then 1
  else entry M i j / (sqrt (entry M i i) * sqrt (entry M j j)).
Proof.
  intros HM Hi Hj. unfold correlation_rows.
  assert (HO : wf_rows d d
                 (np_outer (np_sqrt (np_diag d M)) (np_sqrt (np_diag d M)))).
  { pose proof (wf_rows_outer (np_sqrt (np_diag d M))
                              (np_sqrt (np_diag d M))) as H.
    now rewrite length_std_devs in H. }
  rewrite (entry_fill_diagonal d d) by (auto using wf_rows_divide).
  destruct (i =? j)%nat; [reflexivity |].
  rewrite (entry_divide d d) by assumption.
  rewrite entry_outer by now rewrite length_std_devs.
  now rewrite !nth_std_devs by assumption.
Qed.

Lemma wf_C_example : wf_rows 2 2 C_example.
Proof. split; [reflexivity | repeat constructor]. Qed.

Lemma sqrt_4 : sqrt 4 = 2.
Proof. apply sqrt_lem_1; lra. Qed.

Lemma sqrt_9 : sqrt 9 = 3.
Proof. apply sqrt_lem_1; lra. Qed.

Lemma correlation_example :
  correlation (matrix_obj 2 2 C_example) =
  Ok (mkArray Numeric [2%nat; 2%nat] [[1; 1 / 3]; [1 / 3; 1]]).
Proof.
  rewrite correlation_unfold.
  unfold correlation_rows, C_example, np_fill_diagonal, np_divide, np_outer,
    np_sqrt, np_diag, entry.
  simpl. rewrite sqrt_4, sqrt_9.
  entries_eq.
Qed.

(** C3.  On every square numeric matrix [C] with a strictly positive
    diagonal, [correlation] returns a matrix of the same shape whose entry
    [(i, j)], [i <> j], is [C[i][j] / (sqrt C[i][i] * sqrt C[j][j])] and
    whose diagonal entries are exactly 1.  For C = [[4,2],[2,9]] the result
    is [[1, 1/3], [1/3, 1]]. *)
Theorem correlation_correct :
  (forall (d : nat) (M : list (list R)),
      wf_rows d d M -> positive_diagonal d M ->
      exists K : ndarray,
        correlation (matrix_obj d d M) = Ok K
        /\ shape K = [d; d] /\ wf_rows d d (rows K)
        /\ (forall i j, (i < d)%nat -> (j < d)%nat -> i <> j ->
              entry (rows K) i j =
              entry M i j / (sqrt (entry M i i) * sqrt (entry M j j)))
        /\ (forall i, (i < d)%nat -> entry (rows K) i i = 1))
  /\ correlation (matrix_obj 2 2 C_example) =
     Ok (mkArray Numeric [2%nat; 2%nat] [[1; 1 / 3]; [1 / 3; 1]]).
Proof.
  split; [| exact correlation_example].
  intros d M HM _.
  exists (mkArray Numeric [d; d] (correlation_rows d M)).
  split; [apply correlation_unfold |].
  split; [reflexivity |].
  split; [now apply wf_correlation_rows |].
  simpl. split.
  - intros i j Hi Hj Hij.
    rewrite entry_correlation_rows by assumption.
    destruct (Nat.eqb_spec i j); [contradiction | reflexivity].
  - intros i Hi.
    rewrite entry_correlation_rows by assumption.
    now rewrite Nat.eqb_refl.
Qed.

Lemma positive_diagonal_C_example : positive_diagonal 2 C_example.
Proof.
  intros i Hi. unfold C_example, entry.
  destruct i as [| [| i]]; simpl; try lra. lia.
Qed.

Lemma correlation_correct_witness :
  exists K : ndarray,
    correlation (matrix_obj 2 2 C_example) = Ok K
    /\ shape K = [2%nat; 2%nat] /\ wf_rows 2 2 (rows K)
    /\ (forall i j, (i < 2)%nat -> (j < 2)%nat -> i <> j ->
          entry (rows K) i j =
          entry C_example i j
          / (sqrt (entry C_example i i) * sqrt (entry C_example j j)))
    /\ (forall i, (i < 2)%nat -> entry (rows K) i i = 1).
Proof.
  apply (proj1 correlation_correct 2%nat C_example).
  - exact wf_C_example.
  - exact positive_diagonal_C_example.
Defined.

(** A correlation matrix is its own correlation matrix. *)
Lemma correlation_rows_idempotent (d : nat) (M : list (list R)) :
  wf_rows d d M ->
  correlation_rows d (correlation_rows d M) = correlation_rows d M.
Proof.
  intros HM.
  pose proof (wf_correlation_rows d M HM) as HK.
  apply (rows_ext d d); [now apply wf_correlation_rows | exact HK |].
  intros i j Hi Hj.
  rewrite (entry_correlation_rows d (correlation_rows d M)) by assumption.
  destruct (Nat.eqb_spec i j) as [-> | Hij].
  - rewrite entry_correlation_rows by assumption. now rewrite Nat.eqb_refl.
  - rewrite (entry_correlation_rows d M i i), (entry_correlation_rows d M j j)
      by assumption.
    rewrite !Nat.eqb_refl, sqrt_1. field.
Qed.

(** C5.  [correlation] is idempotent: on every square numeric matrix [C]
    with a strictly positive diagonal, [correlation] applied to
    [correlation C] returns [correlation C] again, exactly. *)
Theorem correlation_idempotent :
  forall (d : nat) (M : list (list R)),
    wf_rows d d M -> positive_diagonal d M ->
    exists K : ndarray,
      correlation (matrix_obj d d M) = Ok K
      /\ correlation (PyArray K) = Ok K.
Proof.
  intros d M HM _.
  exists (mkArray Numeric [d; d] (correlation_rows d M)).
  split; [apply correlation_unfold |].
  change (PyArray (mkArray Numeric [d; d] (correlation_rows d M)))
    with (matrix_obj d d (correlation_rows d M)).
  rewrite correlation_unfold.
  now rewrite correlation_rows_idempotent.
Qed.

Lemma correlation_idempotent_witness :
  exists K : ndarray,
    correlation (matrix_obj 2 2 C_example) = Ok K
    /\ correlation (PyArray K) = Ok K.
Proof.
  apply (correlation_idempotent 2%nat C_example).
  - exact wf_C_example.
  - exact positive_diagonal_C_example.
Defined.

(** ** The checks of [correlation] *)

Lemma correlation_TypeError_iff (C : pyobj) :
  correlation C = Raise correlation_TypeError <-> C = PyOther.
Proof.
  destruct C as [a |]; simpl; [| tauto].
  split; [| discriminate].
  destruct (negb (ndim a =? 2)%nat
            || negb (nth 0 (shape a) 0%nat =? nth 1 (shape a) 0%nat)%nat);
    [discriminate |].
  unfold np_arith. destruct (dtype_of a); simpl; discriminate.
Qed.

Lemma correlation_ValueError_iff (C : pyobj) :
  correlation C = Raise correlation_ValueError <->
  exists a, C = PyArray a
            /\ ~ (ndim a = 2%nat /\ nth 0 (shape a) 0%nat = nth 1 (shape a) 0%nat).
Proof.
  destruct C as [a |]; simpl.
  - destruct (Nat.eqb_spec (ndim a) 2) as [E | E]; simpl.
    + destruct (Nat.eqb_spec (nth 0 (shape a) 0%nat) (nth 1 (shape a) 0%nat))
        as [Q | Q]; simpl.
      * split.
        -- unfold np_arith. destruct (dtype_of a); simpl; discriminate.
        -- intros (a' & Ha & Hn). injection Ha as <-. tauto.
      * split; [| reflexivity]. intros _. exists a. tauto.
    + split; [| reflexivity]. intros _. exists a. tauto.
  - split; [discriminate |]. intros (a' & Ha & _). discriminate.
Qed.

Lemma text_vector_not_numeric : ~ numeric_array text_vector.
Proof. intros (a & Ha & Hd). injection Ha as <-. discriminate. Qed.

(** C8, amended.  [correlation] raises its [TypeError] exactly when its
    input is not an ndarray (the dtype of an array is not inspected), and
    its [ValueError] exactly when the input is an ndarray, of whatever
    dtype, that is not square 2-dimensional; on every square 2-dimensional
    numeric matrix it returns normally. *)
Theorem correlation_validation :
  (forall C, correlation C = Raise correlation_TypeError <-> C = PyOther)
  /\ (forall C, correlation C = Raise correlation_ValueError <->
        exists a, C = PyArray a
                  /\ ~ (ndim a = 2%nat
                        /\ nth 0 (shape a) 0%nat = nth 1 (shape a) 0%nat))
  /\ (forall d M, exists K, correlation (matrix_obj d d M) = Ok K).
Proof.
  split; [exact correlation_TypeError_iff |].
  split; [exact correlation_ValueError_iff |].
  intros d M. rewrite correlation_unfold. eauto.
Qed.

(** C8 as stated fails: an array of two strings is not numeric, and
    [correlation] ends with its [ValueError], not with a [TypeError]. *)
Lemma correlation_text_vector :
  ~ numeric_array text_vector
  /\ correlation text_vector = Raise correlation_ValueError
  /\ ~ (~ numeric_array text_vector ->
        raises_TypeError (correlation text_vector)).
Proof.
  split; [exact text_vector_not_numeric |].
  split; [reflexivity |].
  intros H. destruct (H text_vector_not_numeric) as [msg Hm]. discriminate.
Qed.

(** ** Sorting, sums and [argmax] of the selection *)

Section SelectFacts.

Context {T : Type} {SC : Scalar T} {SL : ScalarLaws T}.

(** The indices [l] are in ascending order of their keys. *)
Fixpoint ascending (keys : list T) (l : list nat) : Prop :=
  match l with
  | [] => True
  | i :: t =>
      match t with
      | [] => True
      | j :: _ => s_leb (nth i keys s_zero) (nth j keys s_zero) = true
      end /\ ascending keys t
  end.

Lemma insert_by_perm (keys : list T) (i : nat) (l : list nat) :
  Permutation (insert_by keys i l) (i :: l).
Proof.
  induction l as [| j t IH]; simpl.
  - reflexivity.
  - destruct (s_leb (nth i keys s_zero) (nth j keys s_zero)).
    + reflexivity.
    + rewrite IH. apply perm_swap.
Qed.

Lemma sort_indices_perm (keys : list T) (l : list nat) :
  Permutation (sort_indices keys l) l.
Proof.
  induction l as [| i t IH]; simpl.
  - reflexivity.
  - rewrite insert_by_perm. now constructor.
Qed.

Lemma np_argsort_perm (keys : list T) :
  Permutation (np_argsort keys) (seq 0 (length keys)).
Proof. apply sort_indices_perm. Qed.

Lemma np_argsort_length (keys : list T) :
  length (np_argsort keys) = length keys.
Proof.
  rewrite (Permutation_length (np_argsort_perm keys)). apply length_seq.
Qed.

Lemma insert_by_ascending (keys : list T) (i : nat) (l : list nat) :
  ascending keys l -> ascending keys (insert_by keys i l).
Proof.
  induction l as [| j t IH]; intros Hl.
  - simpl. auto.
  - simpl insert_by.
    destruct (s_leb (nth i keys s_zero) (nth j keys s_zero)) eqn:E.
    + split; [exact E | exact Hl].
    + destruct Hl as [Hj Ht]. specialize (IH Ht).
      split; [| exact IH].
      destruct t as [| k t']; simpl.
      * destruct (s_leb_total (nth i keys s_zero) (nth j keys s_zero));
          congruence.
      * simpl in IH.
        destruct (s_leb (nth i keys s_zero) (nth k keys s_zero)).
        -- destruct (s_leb_total (nth i keys s_zero) (nth j keys s_zero));
             congruence.
        -- exact Hj.
Qed.

Lemma sort_indices_ascending (keys : list T) (l : list nat) :
  ascending keys (sort_indices keys l).
Proof.
  induction l as [| i t IH]; simpl.
  - exact I.
  - now apply insert_by_ascending.
Qed.

Lemma ascending_nth (keys : list T) (l : list nat) (k : nat) :
  ascending keys l -> (k + 1 < length l)%nat ->
  s_leb (nth (nth k l 0%nat) keys s_zero)
        (nth (nth (k + 1) l 0%nat) keys s_zero) = true.
Proof.
  revert k. induction l as [| i t IH]; intros k Hl Hk.
  - simpl in Hk. lia.
  - destruct Hl as [Hi Ht]. destruct k as [| k].
    + destruct t as [| j t']; simpl in *; [lia | exact Hi].
    + simpl. apply IH; [exact Ht | simpl in Hk; lia].
Qed.

Lemma take_length (a : list T) (l : list nat) : length (take a l) = length l.
Proof. apply length_map. Qed.

Lemma take_nth (a : list T) (l : list nat) (k : nat) :
  (k < length l)%nat -> nth k (take a l) s_zero = nth (nth k l 0%nat) a s_zero.
Proof.
  intros Hk. unfold take. now rewrite (nth_map_lt _ _ _ l k 0%nat s_zero).
Qed.

(** The eigenvalues read in the order [rev (np_argsort keys)] descend. *)
Lemma sorted_descending (keys : list T) :
  descending (take keys (rev (np_argsort keys))).
Proof.
  intros k Hk. rewrite take_length, length_rev in Hk.
  rewrite !take_nth by (rewrite length_rev; lia).
  rewrite !rev_nth by lia.
  pose proof (ascending_nth keys (np_argsort keys)
                (length (np_argsort keys) - S (k + 1))
                (sort_indices_ascending keys _)) as H.
  replace (length (np_argsort keys) - S (k + 1) + 1)%nat
    with (length (np_argsort keys) - S k)%nat in H by lia.
  apply H. lia.
Qed.

(** *** Sums *)

Lemma cumsum_from_length (acc : T) (a : list T) :
  length (cumsum_from acc a) = length a.
Proof.
  revert acc. induction a as [| x t IH]; intros acc; simpl; [| rewrite IH];
    reflexivity.
Qed.

Lemma np_cumsum_length (a : list T) : length (np_cumsum a) = length a.
Proof.
  destruct a as [| x t]; simpl; [| rewrite cumsum_from_length]; reflexivity.
Qed.

Lemma cumsum_from_nth (acc : T) (a : list T) (m : nat) :
  (m < length a)%nat ->
  nth m (cumsum_from acc a) s_zero = fold_left s_add (firstn (m + 1) a) acc.
Proof.
  revert acc m. induction a as [| x t IH]; intros acc m Hm; simpl in Hm.
  - lia.
  - destruct m as [| m]; simpl.
    + now destruct t.
    + rewrite IH by lia. reflexivity.
Qed.

(** Entry [m] of [np.cumsum(a)] is the sum of the first [m + 1] entries. *)
Lemma np_cumsum_nth (a : list T) (m : nat) :
  (m < length a)%nat ->
  nth m (np_cumsum a) s_zero = s_sum (firstn (m + 1) a).
Proof.
  intros Hm. unfold s_sum. destruct a as [| x t]; simpl in Hm; [lia |].
  rewrite Nat.add_1_r. simpl. rewrite s_add_zero_l. destruct m as [| m].
  - reflexivity.
  - rewrite cumsum_from_nth by lia. now rewrite Nat.add_1_r.
Qed.

(** *** [argmax] *)

Lemma argmax_from_true (besti i : nat) (l : list bool) :
  argmax_from true besti i l = besti.
Proof.
  revert i. induction l as [| b t IH]; intros i; simpl; [reflexivity | apply IH].
Qed.

Lemma argmax_from_false (besti i : nat) (l : list bool) :
  argmax_from false besti i l =
  match first_true l with
  | Some k => (i + k)%nat
  | None => besti
  end.
Proof.
  revert i. induction l as [| b t IH]; intros i; simpl.
  - reflexivity.
  - destruct b; simpl.
    + rewrite argmax_from_true. lia.
    + rewrite IH. destruct (first_true t); simpl; [lia | reflexivity].
Qed.

(** [np.argmax] of a non-empty boolean array is the index of its first
    [True], and 0 when there is none. *)
Lemma np_argmax_first_true (l : list bool) :
  l <> [] ->
  np_argmax l = Ok (match first_true l with Some k => k | None => 0%nat end).
Proof.
  destruct l as [| b t]; [congruence | intros _]. simpl.
  destruct b.
  - now rewrite argmax_from_true.
  - rewrite argmax_from_false. destruct (first_true t); reflexivity.
Qed.

Lemma first_true_Some (l : list bool) (k : nat) :
  first_true l = Some k <->
  (k < length l)%nat /\ nth k l false = true
  /\ forall m, (m < k)%nat -> nth m l false = false.
Proof.
  revert k. induction l as [| b t IH]; intros k; simpl.
  - split; [discriminate | intros [H _]; lia].
  - destruct b.
    + split.
      * intros H. injection H as <-. repeat split; [lia | intros m Hm; lia].
      * intros (_ & _ & H). destruct k as [| k]; [reflexivity |].
        specialize (H 0%nat). simpl in H. discriminate H. lia.
    + split.
      * destruct (first_true t) as [k' |]; simpl; [| discriminate].
        intros H. injection H as <-.
        destruct (proj1 (IH k') eq_refl) as (E1 & E2 & E3).
        repeat split; [lia | exact E2 |].
        intros [| m] Hm; [reflexivity | apply E3; lia].
      * intros (H1 & H2 & H3). destruct k as [| k]; [discriminate |].
        assert (E : first_true t = Some k).
        { apply IH. repeat split; [lia | exact H2 |].
          intros m Hm. apply (H3 (S m)). lia. }
        now rewrite E.
Qed.

Lemma first_true_None (l : list bool) :
  first_true l = None <-> forall m, nth m l false = false.
Proof.
  induction l as [| b t IH]; simpl.
  - split; [intros _ [| m]; reflexivity | reflexivity].
  - destruct b.
    + split; [discriminate | intros H; specialize (H 0%nat); discriminate].
    + destruct (first_true t) as [k |]; simpl.
      * split; [discriminate |]. intros H.
        assert (N : Some k = None); [| discriminate].
        apply IH. intros m. apply (H (S m)).
      * split; [| reflexivity]. intros _ [| m]; [reflexivity |].
        now apply IH.
Qed.

End SelectFacts.

(** ** The selection of components *)

Section SelectionFacts.

Context {T : Type} {SC : Scalar T} {SL : ScalarLaws T}.

Variables (w : list T) (V : list (list T)).

Lemma idx_perm : Permutation (idx (pca_steps w V)) (seq 0 (length w)).
Proof.
  simpl. rewrite <- Permutation_rev. apply np_argsort_perm.
Qed.

Lemma idx_length : length (idx (pca_steps w V)) = length w.
Proof. simpl. now rewrite length_rev, np_argsort_length. Qed.

Lemma sorted_eigs_length : length (sorted_eigs (pca_steps w V)) = length w.
Proof. simpl. now rewrite take_length, length_rev, np_argsort_length. Qed.

Lemma sorted_eigs_perm : Permutation (sorted_eigs (pca_steps w V)) w.
Proof.
  simpl. unfold take.
  rewrite (Permutation_map _ idx_perm).
  rewrite <- (map_as_seq _ _ (fun x => x) w s_zero). now rewrite map_id.
Qed.

Lemma threshold_flags_length (v : R) :
  length (threshold_flags w V v) = length w.
Proof.
  unfold threshold_flags. simpl.
  now rewrite !length_map, np_cumsum_length, take_length, length_rev,
    np_argsort_length.
Qed.

(** Flag [m] says whether the first [m + 1] components reach [v]. *)
Lemma threshold_flags_nth (v : R) (m : nat) :
  (m < length w)%nat ->
  nth m (threshold_flags w V v) false =
  s_ge (s_div (s_sum (firstn (m + 1) (sorted_eigs (pca_steps w V))))
              (s_sum (sorted_eigs (pca_steps w V)))) v.
Proof.
  intros Hm. unfold threshold_flags.
  cbn [explained_variance_ratio pca_steps sorted_eigs].
  set (sorted := take w (rev (np_argsort w))).
  assert (Hs : length sorted = length w)
    by (unfold sorted; now rewrite take_length, length_rev, np_argsort_length).
  rewrite (nth_map_lt _ _ _ _ m (s_div s_zero s_zero) false)
    by (rewrite length_map, np_cumsum_length; lia).
  rewrite (nth_map_lt _ _ _ _ m s_zero (s_div s_zero s_zero))
    by (rewrite np_cumsum_length; lia).
  now rewrite np_cumsum_nth by lia.
Qed.

Lemma threshold_flags_reaches (v : R) (m : nat) :
  (1 <= m <= length w)%nat ->
  nth (m - 1) (threshold_flags w V v) false = true <->
  reaches (sorted_eigs (pca_steps w V)) v m.
Proof.
  intros Hm. rewrite threshold_flags_nth by lia.
  replace (m - 1 + 1)%nat with m by lia. reflexivity.
Qed.

(** With a non-zero total, all the components together reach any target
    up to 1. *)
Lemma reaches_all (v : R) :
  s_sum (sorted_eigs (pca_steps w V)) <> s_zero -> v <= 1 ->
  reaches (sorted_eigs (pca_steps w V)) v (length w).
Proof.
  intros Ht Hv. unfold reaches.
  rewrite <- sorted_eigs_length at 1. rewrite firstn_all.
  now apply s_ge_full.
Qed.

(** [select] returns as soon as there is one eigenvalue. *)
Lemma select_unfold (v : R) :
  w <> [] ->
  select w V v =
  Ok (let nd := (match first_true (threshold_flags w V v) with
                 | Some k => k
                 | None => 0%nat
                 end + 1)%nat in
      mkArray2 (length (sorted_W (pca_steps w V)),
                length (firstn nd (idx (pca_steps w V))))
               (map (firstn nd) (sorted_W (pca_steps w V)))).
Proof.
  intros Hw. unfold select.
  fold (threshold_flags w V v).
  rewrite np_argmax_first_true; [reflexivity |].
  intros E. apply (f_equal (@length bool)) in E.
  rewrite threshold_flags_length in E. destruct w; [congruence | discriminate].
Qed.

Lemma select_raises (v : R) :
  w = [] ->
  select w V v =
  Raise (ValueError "attempt to get argmax of an empty sequence").
Proof. intros ->. reflexivity. Qed.

(** The number of components [select] keeps. *)
Lemma first_true_bound (v : R) (k : nat) :
  first_true (threshold_flags w V v) = Some k -> (k < length w)%nat.
Proof.
  intros H. apply first_true_Some in H.
  rewrite threshold_flags_length in H. tauto.
Qed.

End SelectionFacts.

Section SelectionSpecFacts.

Context {T : Type} {SC : Scalar T} {SL : ScalarLaws T}.

Variables (w : list T) (V : list (list T)) (d : nat) (v : R).

Hypothesis w_length : length w = d.
Hypothesis V_shape : wf_rows d d V.
Hypothesis d_pos : (1 <= d)%nat.

(** The count of components kept: one more than the first index whose
    flag is set, one when no flag is set. *)
Definition kept : nat :=
  (match first_true (threshold_flags w V v) with
   | Some k => k
   | None => 0%nat
   end + 1)%nat.

Lemma kept_bounds : (1 <= kept <= d)%nat.
Proof.
  unfold kept. destruct (first_true (threshold_flags w V v)) as [k |] eqn:E.
  - apply first_true_bound in E. lia.
  - lia.
Qed.

Lemma kept_smallest :
  (exists m, (1 <= m <= d)%nat /\ reaches (sorted_eigs (pca_steps w V)) v m) ->
  smallest_reaching (sorted_eigs (pca_steps w V)) v kept.
Proof.
  intros (m & Hm & Hr). unfold kept.
  destruct (first_true (threshold_flags w V v)) as [k |] eqn:E.
  - pose proof (first_true_bound _ _ _ _ E) as Hk.
    apply first_true_Some in E. destruct E as (_ & E2 & E3).
    split.
    + apply threshold_flags_reaches; [lia |].
      now replace (k + 1 - 1)%nat with k by lia.
    + intros m' Hm' Hr'.
      apply threshold_flags_reaches in Hr'; [| lia].
      rewrite E3 in Hr' by lia. discriminate.
  - exfalso. apply threshold_flags_reaches in Hr; [| lia].
    rewrite (proj1 (first_true_None _) E) in Hr. discriminate.
Qed.

Lemma kept_fallback :
  (forall m, (1 <= m <= d)%nat ->
     ~ reaches (sorted_eigs (pca_steps w V)) v m) ->
  kept = 1%nat.
Proof.
  intros H. unfold kept.
  destruct (first_true (threshold_flags w V v)) as [k |] eqn:E; [| reflexivity].
  exfalso. pose proof (first_true_bound _ _ _ _ E) as Hk.
  apply first_true_Some in E. destruct E as (_ & E2 & _).
  apply (H (k + 1)%nat); [lia |].
  apply threshold_flags_reaches; [lia |].
  now replace (k + 1 - 1)%nat with k by lia.
Qed.

Lemma sorted_W_shape : wf_rows d d (sorted_W (pca_steps w V)).
Proof.
  destruct V_shape as [Hn Hr]. split.
  - simpl. now rewrite length_map.
  - apply Forall_forall. intros r Hin. simpl in Hin.
    apply in_map_iff in Hin. destruct Hin as (r0 & <- & _).
    rewrite take_length. fold (idx (pca_steps w V)).
    now rewrite length_rev, np_argsort_length.
Qed.

(** What [select] returns, and that it is the leading columns. *)
Lemma select_leading :
  exists A : array2 T,
    select w V v = Ok A
    /\ leading_columns w V d (idx (pca_steps w V)) kept A.
Proof.
  pose proof kept_bounds as Hk.
  pose proof sorted_W_shape as [HWn HWr].
  assert (Hw : w <> []) by (intros ->; simpl in w_length; lia).
  eexists. split; [apply (select_unfold w V v Hw) |].
  fold kept. cbv zeta.
  split; [rewrite <- w_length; apply idx_perm |].
  split; [apply sorted_descending |].
  split.
  { cbn [shape2]. f_equal; [exact HWn |].
    rewrite length_firstn, idx_length. lia. }
  split.
  { cbn [rows2]. split.
    - now rewrite length_map.
    - apply Forall_forall. intros r Hin. apply in_map_iff in Hin.
      destruct Hin as (r0 & <- & Hr0).
      rewrite Forall_forall in HWr.
      rewrite length_firstn, (HWr r0 Hr0). lia. }
  intros i k Hi Hk'. cbn [rows2]. unfold s_entry.
  rewrite (nth_map_lt _ _ _ _ i [] []) by lia.
  rewrite nth_firstn.
  destruct (Nat.ltb_spec k kept) as [_ | ?]; [| lia].
  cbn [sorted_W pca_steps].
  rewrite (nth_map_lt _ _ _ V i [] []) by (destruct V_shape; lia).
  apply take_nth. fold (idx (pca_steps w V)). rewrite idx_length. lia.
Qed.

End SelectionSpecFacts.

Section Monotone.

Context {T : Type} {SC : Scalar T} {SL : ScalarLaws T}.

Variables (w : list T) (V : list (list T)).

(** The first index that reaches the larger target is not before the first
    index that reaches the smaller one. *)
Lemma first_true_monotone (v1 v2 : R) :
  w <> [] -> v1 <= v2 -> v2 <= 1 ->
  (match first_true (threshold_flags w V v1) with Some k => k | None => 0 end
   <= match first_true (threshold_flags w V v2) with Some k => k | None => 0 end)%nat.
Proof.
  intros Hw H12 H2.
  assert (Hd : (1 <= length w)%nat) by (destruct w; simpl; [congruence | lia]).
  destruct (s_zero_dec (s_sum (sorted_eigs (pca_steps w V)))) as [Z | NZ].
  - (* the two arrays of flags are the same *)
    assert (E : threshold_flags w V v1 = threshold_flags w V v2).
    { unfold threshold_flags.
      cbn [explained_variance_ratio pca_steps]. rewrite !map_map.
      apply map_ext. intros c.
      change (take w (rev (np_argsort w))) with (sorted_eigs (pca_steps w V)).
      rewrite Z. apply s_ge_degenerate. }
    rewrite E. lia.
  - pose proof (reaches_all w V v2 NZ H2) as Hall.
    apply threshold_flags_reaches in Hall; [| lia].
    destruct (first_true (threshold_flags w V v2)) as [k2 |] eqn:E2.
    2:{ rewrite (proj1 (first_true_None _) E2) in Hall. discriminate. }
    pose proof (first_true_bound _ _ _ _ E2) as Hk2.
    apply first_true_Some in E2. destruct E2 as (_ & F2 & _).
    assert (F1 : nth k2 (threshold_flags w V v1) false = true).
    { rewrite threshold_flags_nth in * by lia.
      now apply (s_ge_mono _ v1 v2). }
    destruct (first_true (threshold_flags w V v1)) as [k1 |] eqn:E1; [| lia].
    apply first_true_Some in E1. destruct E1 as (_ & _ & G1).
    destruct (Nat.le_gt_cases k1 k2) as [L | L]; [exact L |].
    rewrite (G1 k2 L) in F1. discriminate.
Qed.

(** [select] keeps no more columns for a smaller target. *)
Lemma select_monotone (v1 v2 : R) (A1 A2 : array2 T) :
  v1 <= v2 -> v2 <= 1 ->
  select w V v1 = Ok A1 -> select w V v2 = Ok A2 ->
  (snd (shape2 A1) <= snd (shape2 A2))%nat.
Proof.
  intros H12 H2 E1 E2.
  destruct w as [| x t] eqn:Ew; [discriminate |]. rewrite <- Ew in *.
  assert (Hw : w <> []) by (rewrite Ew; discriminate).
  rewrite (select_unfold w V v1 Hw) in E1.
  rewrite (select_unfold w V v2 Hw) in E2.
  injection E1 as <-. injection E2 as <-. cbn [shape2 snd].
  rewrite !length_firstn.
  pose proof (first_true_monotone v1 v2 Hw H12 H2). lia.
Qed.

End Monotone.

(** ** The laws hold for real and for complex eigenvalues *)

(** Case analysis on every comparison of real numbers in sight. *)
Ltac rcases :=
  repeat (simpl in *; unfold Rleb, Rltb, Reqb, xge, xgt, xeq, xisnan in *;
          match goal with
          | |- context [Rle_dec ?a ?b] => destruct (Rle_dec a b)
          | |- context [Rlt_dec ?a ?b] => destruct (Rlt_dec a b)
          | |- context [Req_dec_T ?a ?b] => destruct (Req_dec_T a b)
          | H : context [Rle_dec ?a ?b] |- _ => destruct (Rle_dec a b)
          | H : context [Rlt_dec ?a ?b] |- _ => destruct (Rlt_dec a b)
          | H : context [Req_dec_T ?a ?b] |- _ => destruct (Req_dec_T a b)
          end);
  simpl in *; try reflexivity; try discriminate; try contradiction;
  try lra.

Lemma xge_mono (q : xreal) (v1 v2 : R) :
  v1 <= v2 -> xge q v2 = true -> xge q v1 = true.
Proof. destruct q; simpl; intros; rcases. Qed.

#[export] Instance ScalarLaws_R : ScalarLaws R.
Proof.
  split; simpl.
  - intros x. lra.
  - intros a b. rcases; auto.
  - intros t. destruct (Req_dec_T t 0); auto.
  - exact xge_mono.
  - intros t v Ht Hv. unfold xdiv.
    assert (E : t / t = 1) by (field; assumption).
    rewrite E. rcases.
  - intros c v1 v2. unfold xdiv. rcases.
Qed.

Lemma complex_eq (a b : complex) : re a = re b -> im a = im b -> a = b.
Proof. destruct a, b; simpl; intros -> ->; reflexivity. Qed.

Lemma Cxdiv_self (t : complex) :
  t <> mkC 0 0 -> Cxdiv t t = (Fin 1, Fin 0).
Proof.
  intros Ht. unfold Cxdiv.
  assert (Hm : re t * re t + im t * im t <> 0).
  { intros E. apply Ht. apply complex_eq; simpl; nra. }
  destruct (Reqb (re t) 0 && Reqb (im t) 0) eqn:E.
  - exfalso. apply andb_prop in E. destruct E as [E1 E2].
    apply Ht. apply complex_eq; simpl; rcases.
  - f_equal; f_equal; field; exact Hm.
Qed.

#[export] Instance ScalarLaws_C : ScalarLaws complex.
Proof.
  split; simpl.
  - intros [a b]. unfold Cadd. simpl. f_equal; lra.
  - intros a b. unfold Cleb. rcases; auto.
  - intros [a b]. destruct (Req_dec_T a 0) as [-> | Ha].
    + destruct (Req_dec_T b 0) as [-> | Hb]; [now left | right].
      intros E. now injection E.
    + right. intros E. now injection E.
  - intros [qr qi] v1 v2 H12. unfold Cxge. simpl.
    destruct qr, qi; simpl; intros; rcases.
  - intros t v Ht Hv. rewrite Cxdiv_self by exact Ht.
    unfold Cxge. simpl. rcases.
  - intros c v1 v2. unfold Cxdiv, Cxge, xdiv. simpl. rcases.
Qed.

(** ** The covariance [pca] decomposes *)

Lemma transpose_build (n d : nat) (M : list (list R)) :
  length M = n ->
  transpose d M = map (fun j => map (fun i => entry M i j) (seq 0 n)) (seq 0 d).
Proof.
  intros Hn. unfold transpose. apply map_ext. intros j.
  now apply column_seq.
Qed.

Lemma column_build (f : nat -> nat -> R) (n d k : nat) :
  (k < d)%nat ->
  column k (map (fun i => map (fun j => f i j) (seq 0 d)) (seq 0 n)) =
  map (fun i => f i k) (seq 0 n).
Proof.
  intros Hk. unfold column. rewrite map_map. apply map_ext. intros i.
  now apply nth_map_seq.
Qed.

(** [cov_rows] on the transpose of [M], entry by entry. *)
Lemma covariance_build (n d : nat) (M : list (list R)) :
  length M = n ->
  covariance n d M =
  map (fun j => map (fun k =>
         big_sum n (fun i =>
           (entry M i j - column_mean n M j) * (entry M i k - column_mean n M k))
         * (1 / INR (n - 1)))
       (seq 0 d)) (seq 0 d).
Proof.
  intros Hn. unfold covariance, cov_rows.
  rewrite (transpose_build n d M Hn).
  assert (Hc : map (fun p : list R * R => map (fun x => x - snd p) (fst p))
                 (combine
                    (map (fun j => map (fun i => entry M i j) (seq 0 n)) (seq 0 d))
                    (map (fun r => np_sum r / INR n)
                       (map (fun j => map (fun i => entry M i j) (seq 0 n))
                            (seq 0 d))))
               = map (fun j => map (fun i => entry M i j - column_mean n M j)
                                   (seq 0 n)) (seq 0 d)).
  { rewrite map_map, combine_map_seq, map_map. cbn [fst snd].
    apply map_ext. intros j. rewrite map_map. apply map_ext. intros i.
    unfold column_mean. now rewrite np_sum_seq. }
  rewrite !Hc. clear Hc.
  unfold np_dot. rewrite !map_map.
  apply map_ext_in. intros j Hj. rewrite map_map.
  apply map_ext_in. intros k Hk. apply in_seq in Hk.
  f_equal.
  (* column k of the transpose of Xc is row k of Xc *)
  assert (Hcol :
    column k (transpose n
      (map (fun j => map (fun i => entry M i j - column_mean n M j) (seq 0 n))
           (seq 0 d)))
    = map (fun i => entry M i k - column_mean n M k) (seq 0 n)).
  { unfold transpose. unfold column at 1. rewrite map_map.
    apply map_ext_in. intros i Hi. apply in_seq in Hi.
    rewrite column_build by lia.
    now rewrite nth_map_seq by lia. }
  rewrite Hcol. apply inner_seq.
Qed.

Lemma wf_covariance (n d : nat) (M : list (list R)) :
  length M = n -> wf_rows d d (covariance n d M).
Proof.
  intros Hn. rewrite (covariance_build n d M Hn).
  pose proof (wf_rows_build nat
    (fun j k => big_sum n (fun i =>
         (entry M i j - column_mean n M j) * (entry M i k - column_mean n M k))
       * (1 / INR (n - 1))) (seq 0 d) d) as H.
  now rewrite length_seq in H.
Qed.

(** [np.cov(X.T)] is the unbiased sample covariance of the columns of [X]. *)
Lemma entry_covariance (n d : nat) (M : list (list R)) (j k : nat) :
  length M = n -> (2 <= n)%nat -> (j < d)%nat -> (k < d)%nat ->
  entry (covariance n d M) j k = unbiased_cov n M j k.
Proof.
  intros Hn H2 Hj Hk. rewrite (covariance_build n d M Hn).
  rewrite entry_build by assumption.
  unfold unbiased_cov. rewrite minus_INR by lia. simpl.
  assert (INR n - 1 <> 0).
  { apply Rgt_not_eq. apply lt_INR in H2. simpl in H2. lra. }
  field. assumption.
Qed.

(** ** [pca] on a valid input *)

Section PcaFacts.

Variable eig : list (list R) -> eig_out.

Lemma pca_unfold (n d : nat) (M : list (list R)) (v : R) :
  (2 <= n)%nat -> (2 <= d)%nat -> 0 < v <= 1 ->
  pca eig (matrix_obj n d M) (VNum v) =
  match eig (covariance n d M) with
  | EigReal Eigs W_all => W <- select Eigs W_all v ;; Ok (WReal W)
  | EigComplex Eigs W_all => W <- select Eigs W_all v ;; Ok (WComplex W)
  end.
Proof.
  intros Hn Hd Hv. unfold pca, matrix_obj. simpl.
  assert (E : Rltb 0 v && Rleb v 1 = true) by rcases.
  rewrite E. simpl. unfold np_cov_T. simpl.
  destruct d as [| [| d]]; [lia | lia |]. simpl.
  destruct (Nat.ltb_spec n 2); [lia |]. reflexivity.
Qed.

End PcaFacts.

Section PcaSelection.

Context {T : Type} {SC : Scalar T} {SL : ScalarLaws T}.

(** [select] does what [components_selected] says. *)
Lemma select_components (w : list T) (V : list (list T)) (d : nat) (v : R) :
  length w = d -> wf_rows d d V -> (1 <= d)%nat -> v <= 1 ->
  exists A : array2 T,
    select w V v = Ok A /\ components_selected w V d v A.
Proof.
  intros Hw HV Hd Hv.
  destruct (select_leading w V d v Hw HV Hd) as (A & HA & HL).
  exists A. split; [exact HA |].
  exists (idx (pca_steps w V)), (kept w V v).
  split; [exact HL |].
  split; [now apply kept_bounds |].
  split; [now apply kept_smallest |].
  split; [| now apply kept_fallback].
  intros NZ. apply (kept_smallest w V d v Hw Hd).
  exists d. split; [lia |].
  rewrite <- Hw. now apply reaches_all.
Qed.

End PcaSelection.

Lemma eig_diagonal_shapes : eig_shapes eig_diagonal.
Proof.
  intros d C [Hn _]. unfold eig_diagonal, np_diag, identity. rewrite Hn.
  split; [now rewrite length_map, length_seq |].
  pose proof (wf_rows_build nat (fun i j => if (i =? j)%nat then 1 else 0)
                (seq 0 d) d) as H.
  rewrite length_seq in H. exact H.
Qed.

Lemma eig_noisy_shapes (eps : R) : eig_shapes (eig_noisy eps).
Proof.
  intros d C [Hn _]. unfold eig_noisy, np_diag, identity. rewrite Hn.
  split; [now rewrite !length_map, length_seq |].
  split; [now rewrite !length_map, length_seq |].
  apply Forall_forall. intros r Hr.
  apply in_map_iff in Hr. destruct Hr as (r0 & <- & Hr0).
  apply in_map_iff in Hr0. destruct Hr0 as (i & <- & _).
  now rewrite !length_map, length_seq.
Qed.

Section PcaCorrect.

Variable eig : list (list R) -> eig_out.
Hypothesis eig_ok : eig_shapes eig.

Variables (n d : nat) (M : list (list R)) (v : R).
Hypothesis M_shape : wf_rows n d M.
Hypothesis n_ge : (2 <= n)%nat.
Hypothesis d_ge : (2 <= d)%nat.
Hypothesis v_range : 0 < v <= 1.

(** On a valid input with at least two features [pca] returns the
    components selected from the decomposition of the covariance. *)
Lemma pca_selects :
  match eig (covariance n d M) with
  | EigReal w V =>
      exists A, pca eig (matrix_obj n d M) (VNum v) = Ok (WReal A)
                /\ components_selected w V d v A
  | EigComplex w V =>
      exists A, pca eig (matrix_obj n d M) (VNum v) = Ok (WComplex A)
                /\ components_selected w V d v A
  end.
Proof.
  rewrite pca_unfold by assumption.
  pose proof (eig_ok d (covariance n d M)
                (wf_covariance n d M (proj1 M_shape))) as He.
  destruct (eig (covariance n d M)) as [w V | w V];
    destruct He as (Hw & HVn & HVr).
  - destruct (select_components w V d v Hw (conj HVn HVr)) as (A & -> & HA);
      [lia | lra |].
    exists A. split; [reflexivity | exact HA].
  - destruct (select_components w V d v Hw (conj HVn HVr)) as (A & -> & HA);
      [lia | lra |].
    exists A. split; [reflexivity | exact HA].
Qed.

Lemma pca_shape :
  exists W, pca eig (matrix_obj n d M) (VNum v) = Ok W
            /\ fst (wshape W) = d /\ (1 <= ncols W <= d)%nat.
Proof.
  pose proof pca_selects as H.
  destruct (eig (covariance n d M)) as [w V | w V];
    destruct H as (A & -> & (order & nd & HL & Hnd & _));
    destruct HL as (_ & _ & Hs & _);
    eexists; (split; [reflexivity |]);
    unfold ncols; simpl; rewrite Hs; simpl; auto.
Qed.

End PcaCorrect.

(** ** The model run on small samples *)

Lemma Rleb_true (a b : R) : a <= b -> Rleb a b = true.
Proof. intros. rcases. Qed.
Lemma Rleb_false (a b : R) : ~ a <= b -> Rleb a b = false.
Proof. intros. rcases. Qed.
Lemma Rltb_true (a b : R) : a < b -> Rltb a b = true.
Proof. intros. rcases. Qed.
Lemma Rltb_false (a b : R) : ~ a < b -> Rltb a b = false.
Proof. intros. rcases. Qed.
Lemma Reqb_true (a b : R) : a = b -> Reqb a b = true.
Proof. intros. rcases. Qed.
Lemma Reqb_false (a b : R) : a <> b -> Reqb a b = false.
Proof. intros. rcases. Qed.

(** Evaluation of the selection on numerals: every comparison is decided
    by linear arithmetic. *)
Ltac decide_comparison :=
  match goal with
  | |- context [Rleb ?a ?b] =>
      first [ rewrite (Rleb_true a b) by lra | rewrite (Rleb_false a b) by lra ]
  | |- context [Rltb ?a ?b] =>
      first [ rewrite (Rltb_true a b) by lra | rewrite (Rltb_false a b) by lra ]
  | |- context [Reqb ?a ?b] =>
      first [ rewrite (Reqb_true a b) by lra | rewrite (Reqb_false a b) by lra ]
  end.

Ltac run_selection :=
  unfold select, pca_steps, np_argsort, sort_indices;
  repeat (simpl;
          unfold xdiv, xge, xgt, xeq, xisnan, Cleb, Cxdiv, Cxge, Cadd, take,
            s_sum, bind;
          simpl;
          decide_comparison).

Lemma covariance_X_zero : covariance 2 2 X_zero = [[0; 0]; [0; 0]].
Proof.
  rewrite (covariance_build 2 2 X_zero) by reflexivity.
  unfold X_zero, column_mean, big_sum, entry. simpl. entries_eq.
Qed.

Lemma covariance_X_line : covariance 2 2 X_line = [[2; 0]; [0; 0]].
Proof.
  rewrite (covariance_build 2 2 X_line) by reflexivity.
  unfold X_line, column_mean, big_sum, entry. simpl. entries_eq.
Qed.

Lemma pca_X_zero :
  pca eig_diagonal (matrix_obj 2 2 X_zero) (VNum (1 / 2)) =
  Ok (WReal (mkArray2 (2%nat, 1%nat) [[0]; [1]])).
Proof.
  rewrite pca_unfold by (try lia; lra).
  rewrite covariance_X_zero. unfold eig_diagonal, np_diag, identity, entry.
  run_selection. reflexivity.
Qed.

Lemma pca_X_line :
  pca eig_diagonal (matrix_obj 2 2 X_line) (VNum (19 / 20)) =
  Ok (WReal (mkArray2 (2%nat, 1%nat) [[1]; [0]])).
Proof.
  rewrite pca_unfold by (try lia; lra).
  rewrite covariance_X_line. unfold eig_diagonal, np_diag, identity, entry.
  run_selection. reflexivity.
Qed.

Lemma pca_X_line_noisy :
  pca (eig_noisy (1 / 1000)) (matrix_obj 2 2 X_line) (VNum (19 / 20)) =
  Ok (WComplex (mkArray2 (2%nat, 1%nat) [[mkC 1 0]; [mkC 0 0]])).
Proof.
  rewrite pca_unfold by (try lia; lra).
  rewrite covariance_X_line. unfold eig_noisy, np_diag, identity, entry.
  run_selection. reflexivity.
Qed.

Lemma eigs_sorted_noisy :
  eigs_sorted (eig_noisy (1 / 1000) (covariance 2 2 X_line)) =
  [mkC 2 (1 / 1000); mkC 0 (1 / 1000)].
Proof.
  rewrite covariance_X_line. unfold eig_noisy, eigs_sorted, np_diag, entry.
  run_selection. reflexivity.
Qed.

Lemma pca_X_no_feature :
  pca eig_diagonal (matrix_obj 2 0 X_no_feature) (VNum (1 / 2)) =
  Raise (ValueError "attempt to get argmax of an empty sequence").
Proof.
  unfold pca, matrix_obj. simpl.
  rewrite (Rltb_true 0 (1 / 2)), (Rleb_true (1 / 2) 1) by lra.
  reflexivity.
Qed.

Lemma pca_one_feature :
  pca eig_diagonal (matrix_obj 2 1 [[1]; [-1]]) (VNum (1 / 2)) =
  Raise (LinAlgError
    "0-dimensional array given. Array must be at least two-dimensional").
Proof.
  unfold pca, matrix_obj. simpl.
  rewrite (Rltb_true 0 (1 / 2)), (Rleb_true (1 / 2) 1) by lra.
  reflexivity.
Qed.

Lemma pca_text_row (eig : list (list R) -> eig_out) :
  pca eig text_row (VNum (3 / 2)) = Raise pca_ValueError.
Proof.
  unfold pca, text_row. simpl.
  rewrite (Rleb_false (3 / 2) 1) by lra.
  now rewrite andb_false_r.
Qed.

(** ** [pca]: the components it returns *)

(** C1, amended.  For every numeric matrix [X] with [n >= 2] rows and
    [d >= 2] columns and every [var] in (0, 1], [pca] decomposes the unbiased
    covariance of [X] and returns, as the columns of a [d] x [nd] array, the
    first [nd] eigenvectors in descending order of eigenvalue, with
    [1 <= nd <= d]; [nd] is the smallest count of leading components whose
    cumulative eigenvalue sum divided by the total is [>= var] whenever some
    count reaches [var], which is the case whenever the eigenvalues do not
    sum to zero; when no count reaches [var], [nd] is 1. *)
Theorem pca_correct :
  forall (eig : list (list R) -> eig_out) (n d : nat) (M : list (list R)) (v : R),
    eig_shapes eig -> wf_rows n d M -> (2 <= n)%nat -> (2 <= d)%nat ->
    0 < v <= 1 ->
    wf_rows d d (covariance n d M)
    /\ (forall j k, (j < d)%nat -> (k < d)%nat ->
          entry (covariance n d M) j k = unbiased_cov n M j k)
    /\ match eig (covariance n d M) with
       | EigReal w V =>
           exists A, pca eig (matrix_obj n d M) (VNum v) = Ok (WReal A)
                     /\ components_selected w V d v A
       | EigComplex w V =>
           exists A, pca eig (matrix_obj n d M) (VNum v) = Ok (WComplex A)
                     /\ components_selected w V d v A
       end.
Proof.
  intros eig n d M v He HM Hn Hd Hv.
  split; [apply wf_covariance, HM |].
  split; [intros j k Hj Hk; apply entry_covariance; auto; apply HM |].
  now apply pca_selects.
Qed.

Lemma wf_X_line : wf_rows 2 2 X_line.
Proof. split; [reflexivity | repeat constructor]. Qed.

Lemma pca_correct_witness :
  wf_rows 2 2 (covariance 2 2 X_line)
  /\ (forall j k, (j < 2)%nat -> (k < 2)%nat ->
        entry (covariance 2 2 X_line) j k = unbiased_cov 2 X_line j k)
  /\ match eig_diagonal (covariance 2 2 X_line) with
     | EigReal w V =>
         exists A,
           pca eig_diagonal (matrix_obj 2 2 X_line) (VNum (19 / 20))
           = Ok (WReal A)
           /\ components_selected w V 2 (19 / 20) A
     | EigComplex w V =>
         exists A,
           pca eig_diagonal (matrix_obj 2 2 X_line) (VNum (19 / 20))
           = Ok (WComplex A)
           /\ components_selected w V 2 (19 / 20) A
     end.
Proof.
  apply (pca_correct eig_diagonal 2 2 X_line (19 / 20)).
  - exact eig_diagonal_shapes.
  - exact wf_X_line.
  - lia.
  - lia.
  - lra.
Defined.

Lemma take_zeros (order : list nat) (x : R) :
  In x (take [0; 0] order) -> x = 0.
Proof.
  unfold take. intros H. apply in_map_iff in H.
  destruct H as (k & <- & _). now destruct k as [| [| [| k]]].
Qed.

Lemma np_sum_zeros (l : list R) :
  (forall x, In x l -> x = 0) -> np_sum l = 0.
Proof.
  induction l as [| x l IH]; intros H.
  - reflexivity.
  - rewrite np_sum_cons, IH by (intros y Hy; apply H; now right).
    rewrite (H x) by now left. lra.
Qed.

(** C1 as stated fails on a sample without variance: the eigenvalues of the
    covariance of the 2 x 2 zero matrix are 0 and 0, every cumulative ratio
    is 0/0, no count of components reaches [var], and [pca] returns one
    column all the same.  It also fails on a sample with a single feature,
    where [pca] returns nothing: [np.cov] squeezes the 1 x 1 covariance to a
    0-dimensional array, which [np.linalg.eig] rejects. *)
Lemma pca_zero_variance :
  pca eig_diagonal (matrix_obj 2 2 X_zero) (VNum (1 / 2))
  = Ok (WReal (mkArray2 (2%nat, 1%nat) [[0]; [1]]))
  /\ eig_diagonal (covariance 2 2 X_zero) = EigReal [0; 0] [[1; 0]; [0; 1]]
  /\ (forall (order : list nat) (nd : nat),
        ~ smallest_reaching (take [0; 0] order) (1 / 2) nd)
  /\ pca eig_diagonal (matrix_obj 2 1 [[1]; [-1]]) (VNum (1 / 2))
     = Raise (LinAlgError
         "0-dimensional array given. Array must be at least two-dimensional").
Proof.
  split; [exact pca_X_zero |].
  split; [now rewrite covariance_X_zero |].
  split; [| exact pca_one_feature].
  intros order nd [H _]. unfold reaches in H. simpl in H.
  change (@s_sum R Scalar_R) with np_sum in H.
  rewrite !np_sum_zeros in H.
  - unfold xdiv in H. rewrite (Reqb_true 0 0), !(Rltb_false 0 0) in H by lra.
    discriminate.
  - apply take_zeros.
  - intros x Hx. apply (take_zeros order).
    rewrite <- (firstn_skipn nd). apply in_or_app. now left.
Qed.

(** C10, amended.  For every numeric matrix [X] with [n >= 2] rows and
    [d >= 2] columns and every [var] in (0, 1], the weights matrix [pca]
    returns has [d] rows and at least 1 and at most [d] columns. *)
Theorem pca_keeps_a_component :
  forall (eig : list (list R) -> eig_out) (n d : nat) (M : list (list R)) (v : R),
    eig_shapes eig -> wf_rows n d M -> (2 <= n)%nat -> (2 <= d)%nat ->
    0 < v <= 1 ->
    exists W, pca eig (matrix_obj n d M) (VNum v) = Ok W
              /\ fst (wshape W) = d /\ (1 <= ncols W <= d)%nat.
Proof.
  intros eig n d M v He HM Hn Hd Hv. now apply pca_shape.
Qed.

Lemma pca_keeps_a_component_witness :
  exists W, pca eig_diagonal (matrix_obj 2 2 X_line) (VNum (19 / 20)) = Ok W
            /\ fst (wshape W) = 2%nat /\ (1 <= ncols W <= 2)%nat.
Proof.
  apply (pca_keeps_a_component eig_diagonal 2 2 X_line (19 / 20)).
  - exact eig_diagonal_shapes.
  - exact wf_X_line.
  - lia.
  - lia.
  - lra.
Defined.

(** C10 as stated fails on a sample without features: [X] of shape (2, 0)
    is a numeric matrix with two rows, there is no number of columns between
    1 and [d = 0], and [pca] raises the [ValueError] of [np.argmax] on an
    empty array.  With a single feature [pca] returns no matrix either:
    [np.cov] squeezes the 1 x 1 covariance to a 0-dimensional array, which
    [np.linalg.eig] rejects. *)
Lemma pca_no_feature :
  wf_rows 2 0 X_no_feature
  /\ pca eig_diagonal (matrix_obj 2 0 X_no_feature) (VNum (1 / 2))
     = Raise (ValueError "attempt to get argmax of an empty sequence")
  /\ ~ (exists W,
          pca eig_diagonal (matrix_obj 2 0 X_no_feature) (VNum (1 / 2)) = Ok W
          /\ (1 <= ncols W <= 0)%nat)
  /\ ~ (exists W,
          pca eig_diagonal (matrix_obj 2 1 [[1]; [-1]]) (VNum (1 / 2)) = Ok W
          /\ (1 <= ncols W <= 1)%nat).
Proof.
  split; [split; [reflexivity | repeat constructor] |].
  split; [exact pca_X_no_feature |].
  split.
  - intros (W & _ & H). lia.
  - intros (W & H & _). rewrite pca_one_feature in H. discriminate.
Qed.

(** ** [pca]: monotonicity in [var] *)

(** A call of [pca] that returns went through the eigensolver. *)
Lemma pca_Ok_inv (eig : list (list R) -> eig_out) (X : pyobj) (v : R)
    (W : weights) :
  pca eig X (VNum v) = Ok W ->
  exists a d0 C0,
    X = PyArray a /\ np_cov_T a = Ok (CovMatrix d0 C0)
    /\ match eig C0 with
       | EigReal w V => exists A, select w V v = Ok A /\ W = WReal A
       | EigComplex w V => exists A, select w V v = Ok A /\ W = WComplex A
       end.
Proof.
  destruct X as [a |]; simpl; [| discriminate].
  destruct (negb (length (shape a) =? 2)%nat); [discriminate |].
  destruct (negb (Rltb 0 v && Rleb v 1)); [discriminate |].
  destruct (np_cov_T a) as [[d0 C0 | | d0] | e] eqn:Ec; simpl;
    try discriminate.
  intros H. exists a, d0, C0. split; [reflexivity |]. split; [exact Ec |].
  destruct (eig C0) as [w V | w V];
    destruct (select w V v) as [A | e]; simpl in H; try discriminate;
    injection H as <-; eauto.
Qed.

(** C4.  For a fixed [X] and targets [var1 <= var2], both in (0, 1], the
    weights [pca] returns for [var1] have at most as many columns as those
    it returns for [var2]; and on every numeric matrix with at least two
    rows and two columns [pca] does return. *)
Theorem pca_monotone :
  (forall (eig : list (list R) -> eig_out) (X : pyobj) (v1 v2 : R)
          (W1 W2 : weights),
      0 < v1 -> v1 <= v2 -> v2 <= 1 ->
      pca eig X (VNum v1) = Ok W1 ->
      pca eig X (VNum v2) = Ok W2 ->
      (ncols W1 <= ncols W2)%nat)
  /\ (forall (eig : list (list R) -> eig_out) (n d : nat)
             (M : list (list R)) (v : R),
        eig_shapes eig -> wf_rows n d M -> (2 <= n)%nat -> (2 <= d)%nat ->
        0 < v <= 1 ->
        exists W, pca eig (matrix_obj n d M) (VNum v) = Ok W).
Proof.
  split.
  - intros eig X v1 v2 W1 W2 H0 H12 H2 E1 E2.
    apply pca_Ok_inv in E1. apply pca_Ok_inv in E2.
    destruct E1 as (a & d0 & C0 & -> & Hc & E1).
    destruct E2 as (a' & d0' & C0' & Ha & Hc' & E2).
    injection Ha as <-. rewrite Hc in Hc'. injection Hc' as <- <-.
    destruct (eig C0) as [w V | w V];
      destruct E1 as (A1 & S1 & ->); destruct E2 as (A2 & S2 & ->);
      unfold ncols; simpl;
      apply (select_monotone w V v1 v2 A1 A2 H12 H2 S1 S2).
  - intros eig n d M v He HM Hn Hd Hv.
    destruct (pca_shape eig He n d M v HM Hn Hd Hv) as (W & HW & _).
    now exists W.
Qed.

Lemma pca_monotone_witness :
  exists W1 W2,
    pca eig_diagonal (matrix_obj 2 2 X_line) (VNum (4 / 5)) = Ok W1
    /\ pca eig_diagonal (matrix_obj 2 2 X_line) (VNum (19 / 20)) = Ok W2
    /\ (ncols W1 <= ncols W2)%nat.
Proof.
  destruct pca_monotone as [Hmono Hret].
  destruct (Hret eig_diagonal 2%nat 2%nat X_line (4 / 5)
              eig_diagonal_shapes wf_X_line) as [W1 H1]; [lia | lia | lra |].
  destruct (Hret eig_diagonal 2%nat 2%nat X_line (19 / 20)
              eig_diagonal_shapes wf_X_line) as [W2 H2]; [lia | lia | lra |].
  exists W1, W2. split; [exact H1 |]. split; [exact H2 |].
  apply (Hmono eig_diagonal (matrix_obj 2 2 X_line) (4 / 5) (19 / 20));
    [lra | lra | lra | exact H1 | exact H2].
Defined.

(** ** The checks of [pca] *)

Section PcaChecks.

Variable eig : list (list R) -> eig_out.

Lemma select_no_own_error {T : Type} {SC : Scalar T}
    (w : list T) (V : list (list T)) (v : R) (e : exn) :
  select w V v = Raise e ->
  e = ValueError "attempt to get argmax of an empty sequence".
Proof.
  unfold select.
  destruct (map (fun q => s_ge q v) (explained_variance_ratio (pca_steps w V)));
    simpl; intros H; [now injection H as <- | discriminate].
Qed.

(** After its two checks, [pca] ends with neither of its own errors. *)
Lemma pca_after_checks (a : ndarray) (v : R) (e : exn) :
  (C <- np_cov_T a ;;
   e <- np_linalg_eig eig C ;;
   match e with
   | EigReal Eigs W_all => W <- select Eigs W_all v ;; Ok (WReal W)
   | EigComplex Eigs W_all => W <- select Eigs W_all v ;; Ok (WComplex W)
   end) = Raise e ->
  e <> pca_TypeError /\ e <> pca_ValueError.
Proof.
  unfold np_cov_T, np_arith.
  destruct (dtype_of a); simpl.
  2:{ intros H. injection H as <-. split; discriminate. }
  destruct (nth 1 (shape a) 0%nat =? 0)%nat; simpl.
  { destruct (eig []) as [w V | w V];
      destruct (select w V v) as [A | e'] eqn:Es; simpl; try discriminate;
      intros H; injection H as <-;
      apply select_no_own_error in Es; subst e'; split; discriminate. }
  destruct (nth 1 (shape a) 0%nat =? 1)%nat; simpl.
  { intros H. injection H as <-. split; discriminate. }
  destruct (nth 0 (shape a) 0%nat <? 2)%nat; simpl.
  { intros H. injection H as <-. split; discriminate. }
  destruct (eig _) as [w V | w V];
    destruct (select w V v) as [A | e'] eqn:Es; simpl; try discriminate;
    intros H; injection H as <-;
    apply select_no_own_error in Es; subst e'; split; discriminate.
Qed.

Lemma pca_TypeError_iff (X : pyobj) (var : pyvar) :
  pca eig X var = Raise pca_TypeError <-> ~ array_2d X.
Proof.
  unfold array_2d, ndim. destruct X as [a |]; simpl.
  - destruct (Nat.eqb_spec (length (shape a)) 2) as [E | E]; simpl.
    + split.
      * destruct var as [v |]; [| discriminate].
        destruct (negb (Rltb 0 v && Rleb v 1)); [discriminate |].
        intros H. apply pca_after_checks in H. now destruct H.
      * intros H. exfalso. apply H. now exists a.
    + split; [| reflexivity].
      intros _ (a' & Ha & Hd). injection Ha as <-. contradiction.
  - split; [| reflexivity]. intros _ (a' & Ha & _). discriminate.
Qed.

Lemma valid_var_test (v : R) :
  Rltb 0 v && Rleb v 1 = true <-> 0 < v <= 1.
Proof.
  split.
  - intros H. apply andb_prop in H. destruct H. rcases.
  - intros H. rcases.
Qed.

Lemma pca_ValueError_iff (X : pyobj) (var : pyvar) :
  pca eig X var = Raise pca_ValueError <-> array_2d X /\ ~ valid_var var.
Proof.
  unfold array_2d, ndim, valid_var. destruct X as [a |]; simpl.
  - destruct (Nat.eqb_spec (length (shape a)) 2) as [E | E]; simpl.
    + destruct var as [v |].
      * destruct (Rltb 0 v && Rleb v 1) eqn:Ev; simpl.
        -- split.
           ++ intros H. apply pca_after_checks in H. now destruct H.
           ++ intros [_ H]. exfalso. apply H. exists v.
              split; [reflexivity | now apply valid_var_test].
        -- split; [| reflexivity]. intros _. split; [now exists a |].
           intros (v' & Hv & Hr). injection Hv as <-.
           apply valid_var_test in Hr. congruence.
      * split; [| reflexivity]. intros _. split; [now exists a |].
        intros (v' & Hv & _). discriminate.
    + split; [discriminate |].
      intros [(a' & Ha & Hd) _]. injection Ha as <-. contradiction.
  - split; [discriminate |]. intros [(a' & Ha & _) _]. discriminate.
Qed.

End PcaChecks.

(** C9, amended.  [pca] raises its [TypeError] exactly when [X] is not an
    ndarray with two axes (the dtype is not inspected), and its [ValueError]
    exactly when [X] is an ndarray with two axes, of whatever dtype, and
    [var] is not an [int] or [float] in (0, 1]; [var = 1.5] raises the
    [ValueError] on every array with two axes, [var = 1] never does, and on
    a numeric matrix with at least two rows and two columns [var = 1] is
    accepted: [pca] returns. *)
Theorem pca_validation :
  (forall eig X var, pca eig X var = Raise pca_TypeError <-> ~ array_2d X)
  /\ (forall eig X var,
        pca eig X var = Raise pca_ValueError <-> array_2d X /\ ~ valid_var var)
  /\ (forall eig X, array_2d X -> pca eig X (VNum (3 / 2)) = Raise pca_ValueError)
  /\ (forall eig X, pca eig X (VNum 1) <> Raise pca_ValueError)
  /\ (forall eig n d M,
        eig_shapes eig -> wf_rows n d M -> (2 <= n)%nat -> (2 <= d)%nat ->
        exists W, pca eig (matrix_obj n d M) (VNum 1) = Ok W).
Proof.
  split; [exact pca_TypeError_iff |].
  split; [exact pca_ValueError_iff |].
  split.
  { intros eig X HX. apply pca_ValueError_iff. split; [exact HX |].
    intros (v & Hv & Hr). injection Hv as <-. lra. }
  split.
  { intros eig X H. apply pca_ValueError_iff in H. destruct H as [_ H].
    apply H. exists 1. split; [reflexivity | lra]. }
  intros eig n d M He HM Hn Hd.
  destruct (pca_shape eig He n d M 1 HM Hn Hd) as (W & HW & _); [lra |].
  now exists W.
Qed.

Lemma pca_validation_witness :
  pca eig_diagonal (matrix_obj 2 2 X_line) (VNum (3 / 2)) = Raise pca_ValueError
  /\ exists W, pca eig_diagonal (matrix_obj 2 2 X_line) (VNum 1) = Ok W.
Proof.
  destruct pca_validation as (_ & _ & H15 & _ & H1).
  split.
  - apply H15. eexists. split; [reflexivity | reflexivity].
  - apply (H1 eig_diagonal 2%nat 2%nat X_line).
    + exact eig_diagonal_shapes.
    + exact wf_X_line.
    + lia.
    + lia.
Defined.

(** C9 as stated fails: a 1 x 1 array of strings is not a 2-dimensional
    numeric matrix, and with [var = 1.5] [pca] ends with its [ValueError],
    not with a [TypeError]. *)
Lemma pca_text_row_var :
  ~ numeric_matrix text_row
  /\ pca eig_diagonal text_row (VNum (3 / 2)) = Raise pca_ValueError
  /\ ~ (raises_TypeError (pca eig_diagonal text_row (VNum (3 / 2)))
        <-> ~ numeric_matrix text_row).
Proof.
  split; [exact text_row_not_numeric |].
  split; [apply pca_text_row |].
  intros [_ H]. destruct (H text_row_not_numeric) as [msg Hm].
  rewrite pca_text_row in Hm. discriminate.
Qed.

(** ** [pca]: what becomes of the eigenvalues *)

Lemma is_real_of_real (l : list R) : Forall is_real (map (fun x => mkC x 0) l).
Proof.
  apply Forall_forall. intros z Hz. apply in_map_iff in Hz.
  now destruct Hz as (x & <- & _).
Qed.

(** C6, amended.  [pca] neither discards nor clamps anything: the values it
    sorts, sums and compares with the threshold are the eigenvalues exactly
    as the eigensolver returned them.  The sorted eigenvalues are a
    permutation of the returned ones, imaginary parts included, so they are
    all real if and only if the returned ones are (as they are when the
    solver returns real arrays); the sums are taken over them; and the
    weights [pca] returns are complex exactly when the solver returned
    complex arrays. *)
Theorem pca_keeps_eigenvalues :
  (forall e : eig_out,
      Permutation (eigs_sorted e) (eigs_returned e)
      /\ (Forall is_real (eigs_sorted e) <-> Forall is_real (eigs_returned e)))
  /\ (forall (w : list complex) (V : list (list complex)),
        idx (pca_steps w V) = rev (np_argsort w)
        /\ sorted_eigs (pca_steps w V) = take w (idx (pca_steps w V))
        /\ total_variance (pca_steps w V) = s_sum (sorted_eigs (pca_steps w V))
        /\ cumulative_variance (pca_steps w V)
           = np_cumsum (sorted_eigs (pca_steps w V)))
  /\ (forall (w : list R) (V : list (list R)),
        Forall is_real (eigs_sorted (EigReal w V)))
  /\ (forall eig X v W,
        pca eig X (VNum v) = Ok W ->
        exists a d0 C0,
          X = PyArray a /\ np_cov_T a = Ok (CovMatrix d0 C0)
          /\ match W, eig C0 with
             | WReal _, EigReal _ _ => True
             | WComplex _, EigComplex _ _ => True
             | _, _ => False
             end).
Proof.
  split; [| split; [| split]].
  - intros e.
    assert (P : Permutation (eigs_sorted e) (eigs_returned e)).
    { destruct e as [w V | w V]; simpl eigs_sorted; simpl eigs_returned.
      - apply Permutation_map. apply (sorted_eigs_perm w V).
      - apply (sorted_eigs_perm w V). }
    split; [exact P |].
    split; intros H.
    + now rewrite <- P.
    + now rewrite P.
  - intros w V. repeat split.
  - intros w V. apply is_real_of_real.
  - intros eig X v W H. apply pca_Ok_inv in H.
    destruct H as (a & d0 & C0 & HX & HC & H). exists a, d0, C0.
    split; [exact HX |]. split; [exact HC |].
    destruct (eig C0); destruct H as (A & _ & ->); exact I.
Qed.

(** C6 as stated fails: when the solver returns the eigenvalues 2 and 0 of
    the covariance of [X_line] with an imaginary part of 1/1000 each, [pca]
    sorts and sums these complex values and returns complex weights. *)
Lemma pca_noisy_eigenvalues :
  eigs_sorted (eig_noisy (1 / 1000) (covariance 2 2 X_line))
  = [mkC 2 (1 / 1000); mkC 0 (1 / 1000)]
  /\ ~ Forall is_real
         (eigs_sorted (eig_noisy (1 / 1000) (covariance 2 2 X_line)))
  /\ pca (eig_noisy (1 / 1000)) (matrix_obj 2 2 X_line) (VNum (19 / 20))
     = Ok (WComplex (mkArray2 (2%nat, 1%nat) [[mkC 1 0]; [mkC 0 0]])).
Proof.
  split; [exact eigs_sorted_noisy |].
  split; [| exact pca_X_line_noisy].
  rewrite eigs_sorted_noisy. intros H.
  apply Forall_inv in H. unfold is_real in H. simpl in H. lra.
Qed.

(** ** Symmetry *)

(** X1.  The covariance [mean_cov] returns for a numeric matrix with at
    least two rows is symmetric. *)
Theorem mean_cov_symmetric :
  forall (n d : nat) (M : list (list R)),
    wf_rows n d M -> (2 <= n)%nat ->
    exists mean cov : ndarray,
      mean_cov (matrix_obj n d M) = Ok (mean, cov)
      /\ symmetric d (rows cov).
Proof.
  intros n d M HM Hn.
  eexists. eexists. split; [apply mean_cov_unfold; exact Hn |].
  simpl. intros j k Hj Hk.
  rewrite !entry_div_scalar.
  rewrite !(entry_gram n) by (auto; rewrite sub_broadcast_length; apply HM).
  f_equal. apply big_sum_ext. intros i _. apply Rmult_comm.
Qed.

Lemma mean_cov_symmetric_witness :
  exists mean cov : ndarray,
    mean_cov (matrix_obj 4 2 X_example) = Ok (mean, cov)
    /\ symmetric 2 (rows cov).
Proof.
  apply (mean_cov_symmetric 4%nat 2%nat X_example).
  - exact wf_X_example.
  - lia.
Defined.

(** X2.  The matrix [correlation] returns for a symmetric square numeric
    matrix with a strictly positive diagonal is symmetric, with a diagonal
    of ones. *)
Theorem correlation_symmetric :
  forall (d : nat) (M : list (list R)),
    wf_rows d d M -> positive_diagonal d M -> symmetric d M ->
    exists K : ndarray,
      correlation (matrix_obj d d M) = Ok K
      /\ symmetric d (rows K)
      /\ (forall i, (i < d)%nat -> entry (rows K) i i = 1).
Proof.
  intros d M HM _ HS.
  exists (mkArray Numeric [d; d] (correlation_rows d M)).
  split; [apply correlation_unfold |].
  simpl. split.
  - intros i j Hi Hj.
    rewrite !entry_correlation_rows by assumption.
    rewrite (Nat.eqb_sym j i).
    destruct (i =? j)%nat; [reflexivity |].
    rewrite (HS i j Hi Hj). f_equal. apply Rmult_comm.
  - intros i Hi. rewrite entry_correlation_rows by assumption.
    now rewrite Nat.eqb_refl.
Qed.

Lemma symmetric_C_example : symmetric 2 C_example.
Proof.
  intros i j Hi Hj. unfold C_example, entry.
  destruct i as [| [| i]]; destruct j as [| [| j]]; simpl; try reflexivity; lia.
Qed.

Lemma correlation_symmetric_witness :
  exists K : ndarray,
    correlation (matrix_obj 2 2 C_example) = Ok K
    /\ symmetric 2 (rows K)
    /\ (forall i, (i < 2)%nat -> entry (rows K) i i = 1).
Proof.
  apply (correlation_symmetric 2%nat C_example).
  - exact wf_C_example.
  - exact positive_diagonal_C_example.
  - exact symmetric_C_example.
Defined.

(* ================================================================= *)
(** * Further properties *)

(** ** Finite sums *)

Lemma big_sum_plus (n : nat) (f g : nat -> R) :
  big_sum n (fun i => f i + g i) = big_sum n f + big_sum n g.
Proof.
  unfold big_sum. induction (seq 0 n) as [| x l IH]; simpl; [lra |].
  rewrite IH. lra.
Qed.

Lemma big_sum_const (n : nat) (c : R) :
  big_sum n (fun _ => c) = INR n * c.
Proof.
  unfold big_sum. rewrite <- (length_seq n 0) at 2.
  induction (seq 0 n) as [| x l IH]; [simpl; lra |].
  cbn [fold_right length]. rewrite IH, S_INR. lra.
Qed.

Lemma big_sum_mult_l (n : nat) (a : R) (f : nat -> R) :
  big_sum n (fun i => a * f i) = a * big_sum n f.
Proof.
  unfold big_sum. induction (seq 0 n) as [| x l IH]; simpl; [lra |].
  rewrite IH. lra.
Qed.

Lemma big_sum_nonneg (n : nat) (f : nat -> R) :
  (forall i, 0 <= f i) -> 0 <= big_sum n f.
Proof.
  intros H. unfold big_sum. induction (seq 0 n) as [| x l IH]; simpl; [lra |].
  specialize (H x). lra.
Qed.

(** A sum over the rows of a matrix, by index and by row. *)
Lemma big_sum_rows (h : list R -> R) (M : list (list R)) :
  big_sum (length M) (fun i => h (nth i M [])) = np_sum (map h M).
Proof.
  rewrite (map_as_seq _ _ h M []). now rewrite np_sum_seq.
Qed.

Lemma np_sum_perm (l l' : list R) :
  Permutation l l' -> np_sum l = np_sum l'.
Proof.
  induction 1 as [| x l l' _ IH | x y l | l l' l'' _ IH1 _ IH2].
  - reflexivity.
  - now rewrite !np_sum_cons, IH.
  - rewrite !np_sum_cons. lra.
  - now rewrite IH1.
Qed.

Lemma INR_pos (n : nat) : (1 <= n)%nat -> 0 < INR n.
Proof. intros H. apply lt_0_INR. lia. Qed.

(** ** [mean_cov]: the moments entry by entry *)

Lemma mean_cov_returns (n d : nat) (M : list (list R)) :
  (2 <= n)%nat ->
  mean_cov (matrix_obj n d M) =
  Ok (mkArray Numeric [1%nat; d] (np_mean_axis0 n d M),
      mkArray Numeric [d; d] (mean_cov_rows n d M)).
Proof. apply mean_cov_unfold. Qed.

Lemma wf_mean_rows (n d : nat) (M : list (list R)) :
  wf_rows 1 d (np_mean_axis0 n d M).
Proof.
  split; [reflexivity |].
  repeat constructor. now rewrite length_map, length_seq.
Qed.

Lemma wf_mean_cov_rows (n d : nat) (M : list (list R)) :
  wf_rows d d (mean_cov_rows n d M).
Proof. apply wf_rows_div_scalar, wf_rows_gram. Qed.

Lemma entry_mean_rows (n d : nat) (M : list (list R)) (j : nat) :
  length M = n -> (j < d)%nat ->
  entry (np_mean_axis0 n d M) 0 j = column_mean n M j.
Proof. apply entry_mean. Qed.

Lemma entry_mean_cov_rows (n d : nat) (M : list (list R)) (j k : nat) :
  wf_rows n d M -> (2 <= n)%nat -> (j < d)%nat -> (k < d)%nat ->
  entry (mean_cov_rows n d M) j k = unbiased_cov n M j k.
Proof.
  intros HM Hn Hj Hk. unfold mean_cov_rows, unbiased_cov.
  rewrite entry_div_scalar.
  rewrite (entry_gram n) by (auto; rewrite sub_broadcast_length; apply HM).
  rewrite minus_INR by lia. simpl.
  f_equal. apply big_sum_ext. intros i Hi.
  rewrite !(entry_centered n d) by assumption.
  now rewrite !(entry_mean_rows n d) by (auto; apply HM).
Qed.



(** X3.  Every diagonal entry of the covariance [mean_cov] returns, the
    variance of a column, is non-negative. *)
Theorem mean_cov_variance_nonneg :
  forall (n d : nat) (M : list (list R)),
    wf_rows n d M -> (2 <= n)%nat ->
    exists mean cov : ndarray,
      mean_cov (matrix_obj n d M) = Ok (mean, cov)
      /\ forall j, (j < d)%nat -> 0 <= entry (rows cov) j j.
Proof.
  intros n d M HM Hn.
  eexists. eexists. split; [apply mean_cov_returns; exact Hn |].
  simpl. intros j Hj.
  rewrite entry_mean_cov_rows by assumption. unfold unbiased_cov.
  assert (0 < INR n - 1).
  { apply le_INR in Hn. simpl in Hn. lra. }
  apply Rle_mult_inv_pos; [| assumption].
  apply big_sum_nonneg. intros i.
  apply (Rle_0_sqr (entry M i j - column_mean n M j)).
Qed.

Lemma mean_cov_variance_nonneg_witness :
  exists mean cov : ndarray,
    mean_cov (matrix_obj 4 2 X_example) = Ok (mean, cov)
    /\ forall j, (j < 2)%nat -> 0 <= entry (rows cov) j j.
Proof.
  apply (mean_cov_variance_nonneg 4%nat 2%nat X_example).
  - exact wf_X_example.
  - lia.
Defined.

(** ** [mean_cov]: shifted, scaled and reordered samples *)

Lemma wf_shift_rows (n d : nat) (M : list (list R)) (c : list R) :
  wf_rows n d M -> length c = d -> wf_rows n d (shift_rows c M).
Proof.
  intros [Hn Hd] Hc. split.
  - unfold shift_rows. now rewrite length_map.
  - apply Forall_forall. intros r Hr. unfold shift_rows in Hr.
    apply in_map_iff in Hr. destruct Hr as (r0 & <- & Hr0).
    rewrite Forall_forall in Hd.
    rewrite length_map, length_combine, (Hd r0 Hr0). lia.
Qed.

Lemma entry_shift_rows (n d : nat) (M : list (list R)) (c : list R) (i j : nat) :
  wf_rows n d M -> length c = d -> (i < n)%nat -> (j < d)%nat ->
  entry (shift_rows c M) i j = entry M i j + nth j c 0.
Proof.
  intros HM Hc Hi Hj. unfold entry, shift_rows.
  rewrite (nth_map_lt _ _ _ M i [] []) by (destruct HM; lia).
  pose proof (wf_rows_nth n d M i HM Hi) as Hr.
  rewrite (nth_map_lt _ _ _ _ j (0, 0) 0) by (rewrite length_combine; lia).
  now rewrite combine_nth by lia.
Qed.

Lemma wf_scale_rows (n d : nat) (M : list (list R)) (a : R) :
  wf_rows n d M -> wf_rows n d (scale_rows a M).
Proof.
  intros [Hn Hd]. split.
  - unfold scale_rows. now rewrite length_map.
  - apply Forall_forall. intros r Hr. unfold scale_rows in Hr.
    apply in_map_iff in Hr. destruct Hr as (r0 & <- & Hr0).
    rewrite Forall_forall in Hd. now rewrite length_map, (Hd r0 Hr0).
Qed.

Lemma entry_scale_rows (n d : nat) (M : list (list R)) (a : R) (i j : nat) :
  wf_rows n d M -> (i < n)%nat -> (j < d)%nat ->
  entry (scale_rows a M) i j = a * entry M i j.
Proof.
  intros HM Hi Hj. unfold entry, scale_rows.
  rewrite (nth_map_lt _ _ _ M i [] []) by (destruct HM; lia).
  pose proof (wf_rows_nth n d M i HM Hi) as Hr.
  now rewrite (nth_map_lt _ _ _ _ j 0 0) by lia.
Qed.

Lemma column_mean_shift (n d : nat) (M : list (list R)) (c : list R) (j : nat) :
  wf_rows n d M -> length c = d -> (1 <= n)%nat -> (j < d)%nat ->
  column_mean n (shift_rows c M) j = column_mean n M j + nth j c 0.
Proof.
  intros HM Hc Hn Hj. unfold column_mean.
  rewrite (big_sum_ext n _ (fun i => entry M i j + nth j c 0))
    by (intros i Hi; now apply (entry_shift_rows n d)).
  rewrite big_sum_plus, big_sum_const.
  pose proof (INR_pos n Hn). field. lra.
Qed.

Lemma unbiased_cov_shift (n d : nat) (M : list (list R)) (c : list R) (j k : nat) :
  wf_rows n d M -> length c = d -> (1 <= n)%nat -> (j < d)%nat -> (k < d)%nat ->
  unbiased_cov n (shift_rows c M) j k = unbiased_cov n M j k.
Proof.
  intros HM Hc Hn Hj Hk. unfold unbiased_cov. f_equal.
  apply big_sum_ext. intros i Hi.
  rewrite !(entry_shift_rows n d), !(column_mean_shift n d) by assumption.
  ring.
Qed.

Lemma column_mean_scale (n d : nat) (M : list (list R)) (a : R) (j : nat) :
  wf_rows n d M -> (j < d)%nat ->
  column_mean n (scale_rows a M) j = a * column_mean n M j.
Proof.
  intros HM Hj. unfold column_mean.
  rewrite (big_sum_ext n _ (fun i => a * entry M i j))
    by (intros i Hi; now apply (entry_scale_rows n d)).
  rewrite big_sum_mult_l. unfold Rdiv. ring.
Qed.

Lemma unbiased_cov_scale (n d : nat) (M : list (list R)) (a : R) (j k : nat) :
  wf_rows n d M -> (j < d)%nat -> (k < d)%nat ->
  unbiased_cov n (scale_rows a M) j k = a * a * unbiased_cov n M j k.
Proof.
  intros HM Hj Hk. unfold unbiased_cov.
  rewrite (big_sum_ext n _
    (fun i => (a * a) * ((entry M i j - column_mean n M j)
                         * (entry M i k - column_mean n M k)))).
  - rewrite big_sum_mult_l. unfold Rdiv. ring.
  - intros i Hi.
    rewrite !(entry_scale_rows n d), !(column_mean_scale n d) by assumption.
    ring.
Qed.

(** X4.  Adding one and the same row [c] to every observation adds [c] to
    the mean [mean_cov] returns and leaves the covariance as it is. *)
Theorem mean_cov_shift :
  forall (n d : nat) (M : list (list R)) (c : list R),
    wf_rows n d M -> length c = d -> (2 <= n)%nat ->
    exists mean mean' cov : ndarray,
      mean_cov (matrix_obj n d M) = Ok (mean, cov)
      /\ mean_cov (matrix_obj n d (shift_rows c M)) = Ok (mean', cov)
      /\ forall j, (j < d)%nat ->
           entry (rows mean') 0 j = entry (rows mean) 0 j + nth j c 0.
Proof.
  intros n d M c HM Hc Hn.
  pose proof (wf_shift_rows n d M c HM Hc) as HS.
  exists (mkArray Numeric [1%nat; d] (np_mean_axis0 n d M)),
         (mkArray Numeric [1%nat; d] (np_mean_axis0 n d (shift_rows c M))),
         (mkArray Numeric [d; d] (mean_cov_rows n d M)).
  split; [now apply mean_cov_returns |].
  split.
  - rewrite mean_cov_returns by exact Hn. do 3 f_equal.
    apply (rows_ext d d); try apply wf_mean_cov_rows.
    intros j k Hj Hk. rewrite !entry_mean_cov_rows by assumption.
    apply (unbiased_cov_shift n d); auto. lia.
  - intros j Hj. simpl.
    rewrite !(entry_mean_rows n d) by (auto; apply HM || apply HS).
    apply (column_mean_shift n d); auto. lia.
Qed.

Lemma mean_cov_shift_witness :
  exists mean mean' cov : ndarray,
    mean_cov (matrix_obj 4 2 X_example) = Ok (mean, cov)
    /\ mean_cov (matrix_obj 4 2 (shift_rows [10; -3] X_example))
       = Ok (mean', cov)
    /\ forall j, (j < 2)%nat ->
         entry (rows mean') 0 j = entry (rows mean) 0 j + nth j [10; -3] 0.
Proof.
  apply (mean_cov_shift 4%nat 2%nat X_example [10; -3]).
  - exact wf_X_example.
  - reflexivity.
  - lia.
Defined.

(** X5.  Multiplying every entry of the sample by [a] multiplies the mean
    [mean_cov] returns by [a] and the covariance by [a * a]. *)
Theorem mean_cov_scale :
  forall (n d : nat) (M : list (list R)) (a : R),
    wf_rows n d M -> (2 <= n)%nat ->
    exists mean cov mean' cov' : ndarray,
      mean_cov (matrix_obj n d M) = Ok (mean, cov)
      /\ mean_cov (matrix_obj n d (scale_rows a M)) = Ok (mean', cov')
      /\ (forall j, (j < d)%nat ->
            entry (rows mean') 0 j = a * entry (rows mean) 0 j)
      /\ (forall j k, (j < d)%nat -> (k < d)%nat ->
            entry (rows cov') j k = a * a * entry (rows cov) j k).
Proof.
  intros n d M a HM Hn.
  pose proof (wf_scale_rows n d M a HM) as HS.
  do 4 eexists.
  split; [now apply mean_cov_returns |].
  split; [now apply mean_cov_returns |].
  simpl. split.
  - intros j Hj.
    rewrite !(entry_mean_rows n d) by (auto; apply HM || apply HS).
    now apply (column_mean_scale n d).
  - intros j k Hj Hk. rewrite !entry_mean_cov_rows by assumption.
    now apply (unbiased_cov_scale n d).
Qed.

Lemma mean_cov_scale_witness :
  exists mean cov mean' cov' : ndarray,
    mean_cov (matrix_obj 4 2 X_example) = Ok (mean, cov)
    /\ mean_cov (matrix_obj 4 2 (scale_rows 3 X_example)) = Ok (mean', cov')
    /\ (forall j, (j < 2)%nat ->
          entry (rows mean') 0 j = 3 * entry (rows mean) 0 j)
    /\ (forall j k, (j < 2)%nat -> (k < 2)%nat ->
          entry (rows cov') j k = 3 * 3 * entry (rows cov) j k).
Proof.
  apply (mean_cov_scale 4%nat 2%nat X_example 3).
  - exact wf_X_example.
  - lia.
Defined.

Lemma wf_rows_perm (n d : nat) (M M' : list (list R)) :
  Permutation M M' -> wf_rows n d M -> wf_rows n d M'.
Proof.
  intros P [Hn Hd]. split.
  - now rewrite <- (Permutation_length P).
  - now rewrite <- P.
Qed.

Lemma column_mean_perm (n : nat) (M M' : list (list R)) (j : nat) :
  Permutation M M' -> length M = n ->
  column_mean n M' j = column_mean n M j.
Proof.
  intros P Hn. unfold column_mean, entry. f_equal.
  rewrite <- Hn at 2. rewrite (big_sum_rows (fun r => nth j r 0) M).
  rewrite <- Hn, (Permutation_length P).
  rewrite (big_sum_rows (fun r => nth j r 0) M').
  symmetry. apply np_sum_perm. now apply Permutation_map.
Qed.

Lemma unbiased_cov_perm (n : nat) (M M' : list (list R)) (j k : nat) :
  Permutation M M' -> length M = n ->
  unbiased_cov n M' j k = unbiased_cov n M j k.
Proof.
  intros P Hn. unfold unbiased_cov.
  rewrite !(column_mean_perm n M M') by assumption.
  f_equal. unfold entry.
  rewrite <- Hn at 2.
  rewrite (big_sum_rows
    (fun r => (nth j r 0 - column_mean n M j) * (nth k r 0 - column_mean n M k)) M).
  rewrite <- Hn at 1. rewrite (Permutation_length P).
  rewrite (big_sum_rows
    (fun r => (nth j r 0 - column_mean n M j) * (nth k r 0 - column_mean n M k)) M').
  symmetry. apply np_sum_perm. now apply Permutation_map.
Qed.

(** X6.  The moments do not depend on the order of the observations:
    [mean_cov] returns the same mean and covariance for the rows of [X] in
    any other order. *)
Theorem mean_cov_row_order :
  forall (n d : nat) (M M' : list (list R)),
    wf_rows n d M -> (2 <= n)%nat -> Permutation M M' ->
    mean_cov (matrix_obj n d M') = mean_cov (matrix_obj n d M).
Proof.
  intros n d M M' HM Hn P.
  pose proof (wf_rows_perm n d M M' P HM) as HM'.
  rewrite !mean_cov_returns by exact Hn. do 2 f_equal.
  - f_equal. apply (rows_ext 1 d); try apply wf_mean_rows.
    intros i j Hi Hj. assert (i = 0%nat) as -> by lia.
    rewrite !(entry_mean_rows n d) by (auto; apply HM || apply HM').
    apply column_mean_perm; [exact P | apply HM].
  - f_equal. apply (rows_ext d d); try apply wf_mean_cov_rows.
    intros j k Hj Hk. rewrite !entry_mean_cov_rows by assumption.
    apply unbiased_cov_perm; [exact P | apply HM].
Qed.

Lemma mean_cov_row_order_witness :
  mean_cov (matrix_obj 4 2 [[3; 4]; [1; 2]; [5; 6]; [7; 8]])
  = mean_cov (matrix_obj 4 2 X_example).
Proof.
  apply (mean_cov_row_order 4%nat 2%nat X_example).
  - exact wf_X_example.
  - lia.
  - apply perm_swap.
Defined.

(** ** [correlation] of a covariance: entries between -1 and 1 *)

Lemma big_sum_quadratic (n : nat) (a b : nat -> R) (x y : R) :
  big_sum n (fun i => (a i * x - b i * y) * (a i * x - b i * y))
  = x * x * big_sum n (fun i => a i * a i)
    - 2 * x * y * big_sum n (fun i => a i * b i)
    + y * y * big_sum n (fun i => b i * b i).
Proof.
  unfold big_sum. induction (seq 0 n) as [| i l IH]; simpl; [ring |].
  rewrite IH. ring.
Qed.

Lemma big_sum_square_nonneg (n : nat) (f : nat -> R) :
  0 <= big_sum n (fun i => f i * f i).
Proof. apply big_sum_nonneg. intros i. apply (Rle_0_sqr (f i)). Qed.

(** The inequality of Cauchy and Schwarz for finite sums. *)
Lemma big_sum_cauchy_schwarz (n : nat) (a b : nat -> R) :
  big_sum n (fun i => a i * b i) * big_sum n (fun i => a i * b i)
  <= big_sum n (fun i => a i * a i) * big_sum n (fun i => b i * b i).
Proof.
  set (Saa := big_sum n (fun i => a i * a i)).
  set (Sab := big_sum n (fun i => a i * b i)).
  set (Sbb := big_sum n (fun i => b i * b i)).
  assert (Haa : 0 <= Saa) by apply big_sum_square_nonneg.
  assert (Hbb : 0 <= Sbb) by apply big_sum_square_nonneg.
  assert (Q : forall x y, 0 <= x * x * Saa - 2 * x * y * Sab + y * y * Sbb).
  { intros x y. unfold Saa, Sab, Sbb. rewrite <- big_sum_quadratic.
    apply big_sum_square_nonneg. }
  destruct (Rle_lt_or_eq_dec 0 Saa Haa) as [Pa | Za].
  - pose proof (Q Sab Saa) as H.
    assert (E : Sab * Sab * Saa - 2 * Sab * Saa * Sab + Saa * Saa * Sbb
                = Saa * (Saa * Sbb - Sab * Sab)) by ring.
    rewrite E in H.
    assert (0 <= Saa * Sbb - Sab * Sab); [| lra].
    apply (Rmult_le_reg_l Saa); [exact Pa | lra].
  - rewrite <- Za in *.
    destruct (Rle_lt_or_eq_dec 0 Sbb Hbb) as [Pb | Zb].
    + pose proof (Q Sbb Sab) as H.
      assert (E : Sbb * Sbb * 0 - 2 * Sbb * Sab * Sab + Sab * Sab * Sbb
                  = Sbb * (0 - Sab * Sab)) by ring.
      rewrite E in H.
      assert (0 <= 0 - Sab * Sab); [| lra].
      apply (Rmult_le_reg_l Sbb); [exact Pb | lra].
    + rewrite <- Zb in *. pose proof (Q Sab 1) as H.
      assert (E : Sab * Sab * 0 - 2 * Sab * 1 * Sab + 1 * 1 * 0
                  = - (2 * (Sab * Sab))) by ring.
      rewrite E in H. lra.
Qed.

Lemma unbiased_cov_cauchy_schwarz (n : nat) (M : list (list R)) (j k : nat) :
  (2 <= n)%nat ->
  unbiased_cov n M j k * unbiased_cov n M j k
  <= unbiased_cov n M j j * unbiased_cov n M k k.
Proof.
  intros Hn. unfold unbiased_cov.
  assert (Hp : 0 < INR n - 1).
  { apply le_INR in Hn. simpl in Hn. lra. }
  pose proof (big_sum_cauchy_schwarz n
    (fun i => entry M i j - column_mean n M j)
    (fun i => entry M i k - column_mean n M k)) as CS.
  simpl in CS.
  set (Sjk := big_sum n _) in *.
  set (Sjj := big_sum n _) in CS |- *.
  set (Skk := big_sum n _) in CS |- *.
  unfold Rdiv.
  assert (Hi : 0 < / (INR n - 1)) by now apply Rinv_0_lt_compat.
  replace (Sjk * / (INR n - 1) * (Sjk * / (INR n - 1)))
    with (Sjk * Sjk * (/ (INR n - 1) * / (INR n - 1))) by ring.
  replace (Sjj * / (INR n - 1) * (Skk * / (INR n - 1)))
    with (Sjj * Skk * (/ (INR n - 1) * / (INR n - 1))) by ring.
  apply Rmult_le_compat_r; [| exact CS].
  apply Rlt_le. now apply Rmult_lt_0_compat.
Qed.

(** A quotient [c / (p * q)] lies between -1 and 1 when [c * c] is at most
    [(p * p) * (q * q)] and [p], [q] are positive. *)
Lemma quotient_bounded (c p q : R) :
  0 < p -> 0 < q -> c * c <= (p * p) * (q * q) -> -1 <= c / (p * q) <= 1.
Proof.
  intros Hp Hq H.
  assert (Hpq : 0 < p * q) by now apply Rmult_lt_0_compat.
  assert (Hc : - (p * q) <= c <= p * q) by (split; nra).
  split.
  - apply (Rmult_le_reg_r (p * q)); [exact Hpq |].
    unfold Rdiv. rewrite Rmult_assoc, Rinv_l by lra. lra.
  - apply (Rmult_le_reg_r (p * q)); [exact Hpq |].
    unfold Rdiv. rewrite Rmult_assoc, Rinv_l by lra. lra.
Qed.

(** X7.  The two functions composed: when every feature of the sample has a
    positive variance, [correlation] applied to the covariance of [mean_cov]
    returns a matrix whose entries all lie between -1 and 1. *)
Theorem correlation_of_covariance_bounded :
  forall (n d : nat) (M : list (list R)),
    wf_rows n d M -> (2 <= n)%nat ->
    (forall j, (j < d)%nat -> 0 < unbiased_cov n M j j) ->
    exists mean cov K : ndarray,
      mean_cov (matrix_obj n d M) = Ok (mean, cov)
      /\ correlation (PyArray cov) = Ok K
      /\ forall i j, (i < d)%nat -> (j < d)%nat ->
           -1 <= entry (rows K) i j <= 1.
Proof.
  intros n d M HM Hn Hvar.
  exists (mkArray Numeric [1%nat; d] (np_mean_axis0 n d M)),
         (mkArray Numeric [d; d] (mean_cov_rows n d M)),
         (mkArray Numeric [d; d] (correlation_rows d (mean_cov_rows n d M))).
  split; [now apply mean_cov_returns |].
  split; [apply (correlation_unfold d (mean_cov_rows n d M)) |].
  intros i j Hi Hj. simpl.
  rewrite entry_correlation_rows by (auto; apply wf_mean_cov_rows).
  destruct (i =? j)%nat; [lra |].
  rewrite !entry_mean_cov_rows by assumption.
  pose proof (Hvar i Hi) as Vi. pose proof (Hvar j Hj) as Vj.
  apply quotient_bounded.
  - now apply sqrt_lt_R0.
  - now apply sqrt_lt_R0.
  - rewrite !sqrt_sqrt by lra.
    now apply unbiased_cov_cauchy_schwarz.
Qed.

Lemma X_example_variances :
  forall j, (j < 2)%nat -> 0 < unbiased_cov 4 X_example j j.
Proof.
  intros j Hj. unfold unbiased_cov, column_mean, big_sum, X_example, entry.
  destruct j as [| [| j]]; simpl; [lra | lra | lia].
Qed.

Lemma correlation_of_covariance_bounded_witness :
  exists mean cov K : ndarray,
    mean_cov (matrix_obj 4 2 X_example) = Ok (mean, cov)
    /\ correlation (PyArray cov) = Ok K
    /\ forall i j, (i < 2)%nat -> (j < 2)%nat ->
         -1 <= entry (rows K) i j <= 1.
Proof.
  apply (correlation_of_covariance_bounded 4%nat 2%nat X_example).
  - exact wf_X_example.
  - lia.
  - exact X_example_variances.
Defined.

(** ** [correlation]: change of units and fixed points *)

Lemma sqrt_rescaled (s x : R) : 0 < s -> 0 <= x -> sqrt (s * s * x) = s * sqrt x.
Proof.
  intros Hs Hx.
  rewrite sqrt_mult by nra.
  now rewrite sqrt_square by lra.
Qed.

(** X8.  The correlation does not depend on the units of the variables: if
    [C'[i][j] = s[i] * s[j] * C[i][j]] with positive factors [s], as when
    every variable [i] is measured in a unit [s[i]] times smaller, then
    [correlation] returns for [C'] what it returns for [C]. *)
Theorem correlation_unit_change :
  forall (d : nat) (M M' : list (list R)) (s : nat -> R),
    wf_rows d d M -> wf_rows d d M' -> positive_diagonal d M ->
    (forall i, (i < d)%nat -> 0 < s i) ->
    (forall i j, (i < d)%nat -> (j < d)%nat ->
       entry M' i j = s i * s j * entry M i j) ->
    correlation (matrix_obj d d M') = correlation (matrix_obj d d M).
Proof.
  intros d M M' s HM HM' Hpos Hs Hrel.
  rewrite !correlation_unfold. do 2 f_equal.
  apply (rows_ext d d); try now apply wf_correlation_rows.
  intros i j Hi Hj. rewrite !entry_correlation_rows by assumption.
  destruct (i =? j)%nat; [reflexivity |].
  pose proof (Hpos i Hi) as Pi. pose proof (Hpos j Hj) as Pj.
  pose proof (Hs i Hi) as Si. pose proof (Hs j Hj) as Sj.
  rewrite (Hrel i j), (Hrel i i), (Hrel j j) by assumption.
  rewrite !sqrt_rescaled by lra.
  pose proof (sqrt_lt_R0 _ Pi). pose proof (sqrt_lt_R0 _ Pj).
  field. repeat split; lra.
Qed.

Lemma correlation_unit_change_witness :
  correlation (matrix_obj 2 2 [[16; 8]; [8; 36]])
  = correlation (matrix_obj 2 2 C_example).
Proof.
  apply (correlation_unit_change 2%nat C_example [[16; 8]; [8; 36]]
           (fun _ => 2)).
  - exact wf_C_example.
  - split; [reflexivity | repeat constructor].
  - exact positive_diagonal_C_example.
  - intros i _. lra.
  - intros i j Hi Hj. unfold C_example, entry.
    destruct i as [| [| i]]; destruct j as [| [| j]]; simpl; try lra; lia.
Defined.

(** X9.  The matrices [correlation] returns unchanged are exactly those with
    ones on the diagonal. *)
Theorem correlation_fixed_points :
  forall (d : nat) (M : list (list R)),
    wf_rows d d M ->
    (correlation (matrix_obj d d M) = Ok (mkArray Numeric [d; d] M)
     <-> forall i, (i < d)%nat -> entry M i i = 1).
Proof.
  intros d M HM. rewrite correlation_unfold. split.
  - intros H i Hi. injection H as H. rewrite <- H.
    rewrite entry_correlation_rows by assumption. now rewrite Nat.eqb_refl.
  - intros H. do 2 f_equal.
    apply (rows_ext d d); [now apply wf_correlation_rows | exact HM |].
    intros i j Hi Hj. rewrite entry_correlation_rows by assumption.
    destruct (Nat.eqb_spec i j) as [-> | _].
    + symmetry. now apply H.
    + rewrite (H i Hi), (H j Hj), sqrt_1. field.
Qed.

Lemma correlation_fixed_points_witness :
  correlation (matrix_obj 2 2 [[1; 1 / 3]; [1 / 3; 1]])
  = Ok (mkArray Numeric [2%nat; 2%nat] [[1; 1 / 3]; [1 / 3; 1]])
  <-> forall i, (i < 2)%nat -> entry [[1; 1 / 3]; [1 / 3; 1]] i i = 1.
Proof.
  apply (correlation_fixed_points 2%nat [[1; 1 / 3]; [1 / 3; 1]]).
  split; [reflexivity | repeat constructor].
Defined.

(** ** [pca]: shifted and reordered samples *)

Lemma covariance_shift (n d : nat) (M : list (list R)) (c : list R) :
  wf_rows n d M -> length c = d -> (2 <= n)%nat ->
  covariance n d (shift_rows c M) = covariance n d M.
Proof.
  intros HM Hc Hn.
  pose proof (wf_shift_rows n d M c HM Hc) as HS.
  apply (rows_ext d d).
  - apply wf_covariance, HS.
  - apply wf_covariance, HM.
  - intros j k Hj Hk.
    rewrite !entry_covariance by (auto; apply HM || apply HS).
    apply (unbiased_cov_shift n d); auto. lia.
Qed.

Lemma covariance_perm (n d : nat) (M M' : list (list R)) :
  wf_rows n d M -> Permutation M M' -> (2 <= n)%nat ->
  covariance n d M' = covariance n d M.
Proof.
  intros HM P Hn.
  pose proof (wf_rows_perm n d M M' P HM) as HM'.
  apply (rows_ext d d).
  - apply wf_covariance, HM'.
  - apply wf_covariance, HM.
  - intros j k Hj Hk.
    rewrite !entry_covariance by (auto; apply HM || apply HM').
    apply unbiased_cov_perm; [exact P | apply HM].
Qed.

(** [pca] reads the rows of a numeric array only through [covariance]. *)
Lemma pca_through_covariance (eig : list (list R) -> eig_out) (n d : nat)
    (M M' : list (list R)) (var : pyvar) :
  ((2 <= n)%nat -> covariance n d M' = covariance n d M) ->
  pca eig (matrix_obj n d M') var = pca eig (matrix_obj n d M) var.
Proof.
  intros H. unfold pca, matrix_obj. simpl.
  destruct var as [v |]; [| reflexivity].
  destruct (negb (Rltb 0 v && Rleb v 1)); [reflexivity |].
  unfold np_cov_T. simpl.
  destruct d as [| [| d]]; [reflexivity | reflexivity |]. simpl.
  destruct (Nat.ltb_spec n 2) as [L | L]; [reflexivity |].
  now rewrite (H L).
Qed.

(** X10.  [pca] does not need a centred sample: [np.cov] subtracts the
    column means itself, so adding one and the same row [c] to every
    observation changes nothing in what [pca] returns or raises, and neither
    does another order of the observations. *)
Theorem pca_shift_and_row_order :
  (forall (eig : list (list R) -> eig_out) (n d : nat) (M : list (list R))
          (c : list R) (var : pyvar),
      wf_rows n d M -> length c = d ->
      pca eig (matrix_obj n d (shift_rows c M)) var
      = pca eig (matrix_obj n d M) var)
  /\ (forall (eig : list (list R) -> eig_out) (n d : nat)
             (M M' : list (list R)) (var : pyvar),
        wf_rows n d M -> Permutation M M' ->
        pca eig (matrix_obj n d M') var = pca eig (matrix_obj n d M) var).
Proof.
  split.
  - intros eig n d M c var HM Hc. apply pca_through_covariance.
    intros Hn. now apply covariance_shift.
  - intros eig n d M M' var HM P. apply pca_through_covariance.
    intros Hn. now apply covariance_perm.
Qed.

Lemma pca_shift_and_row_order_witness :
  pca eig_diagonal (matrix_obj 2 2 (shift_rows [5; 7] X_line)) (VNum (19 / 20))
  = pca eig_diagonal (matrix_obj 2 2 X_line) (VNum (19 / 20))
  /\ pca eig_diagonal (matrix_obj 2 2 [[-1; 0]; [1; 0]]) (VNum (19 / 20))
     = pca eig_diagonal (matrix_obj 2 2 X_line) (VNum (19 / 20)).
Proof.
  destruct pca_shift_and_row_order as [Hs Hp]. split.
  - apply Hs; [exact wf_X_line | reflexivity].
  - apply Hp; [exact wf_X_line | apply perm_swap].
Defined.

(** ** [pca]: the shapes it returns on *)

Lemma pca_raises_no_feature (eig : list (list R) -> eig_out) (n : nat)
    (M : list (list R)) (v : R) :
  eig_shapes eig -> 0 < v <= 1 ->
  pca eig (matrix_obj n 0 M) (VNum v)
  = Raise (ValueError "attempt to get argmax of an empty sequence").
Proof.
  intros He Hv. unfold pca, matrix_obj. simpl.
  rewrite (proj2 (valid_var_test v) Hv). simpl.
  pose proof (He 0%nat [] (conj eq_refl (Forall_nil _))) as H.
  destruct (eig []) as [w V | w V]; destruct H as (Hw & _);
    apply length_zero_iff_nil in Hw; subst w; reflexivity.
Qed.

Lemma pca_raises_one_feature (eig : list (list R) -> eig_out) (n : nat)
    (M : list (list R)) (v : R) :
  0 < v <= 1 ->
  pca eig (matrix_obj n 1 M) (VNum v)
  = Raise (LinAlgError
      "0-dimensional array given. Array must be at least two-dimensional").
Proof.
  intros Hv. unfold pca, matrix_obj. simpl.
  rewrite (proj2 (valid_var_test v) Hv). reflexivity.
Qed.

Lemma pca_raises_one_observation (eig : list (list R) -> eig_out) (n d : nat)
    (M : list (list R)) (v : R) :
  0 < v <= 1 -> (2 <= d)%nat -> (n < 2)%nat ->
  pca eig (matrix_obj n d M) (VNum v)
  = Raise (LinAlgError "Array must not contain infs or NaNs").
Proof.
  intros Hv Hd Hn. unfold pca, matrix_obj. simpl.
  rewrite (proj2 (valid_var_test v) Hv). simpl. unfold np_cov_T. simpl.
  destruct d as [| [| d]]; [lia | lia |]. simpl.
  destruct (Nat.ltb_spec n 2); [reflexivity | lia].
Qed.

(** X11.  With a valid [var], [pca] returns on a numeric matrix exactly when
    it has at least two rows and at least two columns.  Without a column it
    raises the [ValueError] of [np.argmax] on an empty array; with one
    column, the [LinAlgError] of [np.linalg.eig] on the 0-dimensional array
    that [np.cov] squeezed its result to; with fewer than two rows (and two
    columns or more), the [LinAlgError] of [np.linalg.eig] on a covariance
    of NaN: unlike [mean_cov], [pca] does not check the number of rows. *)
Theorem pca_returns_iff :
  forall (eig : list (list R) -> eig_out) (n d : nat) (M : list (list R))
         (v : R),
    eig_shapes eig -> wf_rows n d M -> 0 < v <= 1 ->
    ((exists W, pca eig (matrix_obj n d M) (VNum v) = Ok W)
     <-> (2 <= n)%nat /\ (2 <= d)%nat)
    /\ (d = 0%nat ->
        pca eig (matrix_obj n d M) (VNum v)
        = Raise (ValueError "attempt to get argmax of an empty sequence"))
    /\ (d = 1%nat ->
        pca eig (matrix_obj n d M) (VNum v)
        = Raise (LinAlgError
            "0-dimensional array given. Array must be at least two-dimensional"))
    /\ ((2 <= d)%nat -> (n < 2)%nat ->
        pca eig (matrix_obj n d M) (VNum v)
        = Raise (LinAlgError "Array must not contain infs or NaNs")).
Proof.
  intros eig n d M v He HM Hv.
  split; [| split; [| split]].
  - split.
    + intros [W HW].
      destruct d as [| [| d]].
      * rewrite pca_raises_no_feature in HW by assumption. discriminate.
      * rewrite pca_raises_one_feature in HW by assumption. discriminate.
      * destruct (Nat.lt_ge_cases n 2) as [L | L]; [| lia].
        rewrite pca_raises_one_observation in HW by (auto; lia).
        discriminate.
    + intros [Hn Hd].
      destruct (pca_shape eig He n d M v HM Hn Hd Hv) as (W & HW & _).
      now exists W.
  - intros ->. now apply pca_raises_no_feature.
  - intros ->. now apply pca_raises_one_feature.
  - intros Hd Hn. now apply pca_raises_one_observation.
Qed.

Lemma pca_returns_iff_witness :
  ((exists W, pca eig_diagonal (matrix_obj 1 2 [[1; 2]]) (VNum (1 / 2)) = Ok W)
   <-> (2 <= 1)%nat /\ (2 <= 2)%nat)
  /\ (2%nat = 0%nat ->
      pca eig_diagonal (matrix_obj 1 2 [[1; 2]]) (VNum (1 / 2))
      = Raise (ValueError "attempt to get argmax of an empty sequence"))
  /\ (2%nat = 1%nat ->
      pca eig_diagonal (matrix_obj 1 2 [[1; 2]]) (VNum (1 / 2))
      = Raise (LinAlgError
          "0-dimensional array given. Array must be at least two-dimensional"))
  /\ ((2 <= 2)%nat -> (1 < 2)%nat ->
      pca eig_diagonal (matrix_obj 1 2 [[1; 2]]) (VNum (1 / 2))
      = Raise (LinAlgError "Array must not contain infs or NaNs")).
Proof.
  apply (pca_returns_iff eig_diagonal 1%nat 2%nat [[1; 2]] (1 / 2)).
  - exact eig_diagonal_shapes.
  - split; [reflexivity | repeat constructor].
  - lra.
Defined.

(** ** [pca]: real eigenvalues that are not negative *)

Lemma np_sum_app (a b : list R) : np_sum (a ++ b) = np_sum a + np_sum b.
Proof.
  induction a as [| x a IH]; simpl.
  - unfold np_sum at 2. simpl. lra.
  - rewrite !np_sum_cons, IH. lra.
Qed.

Lemma np_sum_nonneg (l : list R) :
  Forall (fun x => 0 <= x) l -> 0 <= np_sum l.
Proof.
  induction 1 as [| x l Hx _ IH].
  - unfold np_sum. simpl. lra.
  - rewrite np_sum_cons. lra.
Qed.

Lemma np_sum_pos (l : list R) :
  l <> [] -> Forall (fun x => 0 < x) l -> 0 < np_sum l.
Proof.
  intros Hl H. destruct H as [| x l Hx Hr]; [congruence |].
  rewrite np_sum_cons.
  assert (0 <= np_sum l); [| lra].
  apply np_sum_nonneg. eapply Forall_impl; [| exact Hr].
  intros y Hy. simpl in Hy. lra.
Qed.

Lemma Forall_skipn (P : R -> Prop) (k : nat) (l : list R) :
  Forall P l -> Forall P (skipn k l).
Proof.
  intros H. rewrite Forall_forall in *. intros x Hx. apply H.
  rewrite <- (firstn_skipn k l). apply in_or_app. now right.
Qed.

(** The partial sums of non-negative numbers do not decrease. *)
Lemma partial_sums_monotone (l : list R) (m m' : nat) :
  Forall (fun x => 0 <= x) l -> (m <= m')%nat ->
  np_sum (firstn m l) <= np_sum (firstn m' l).
Proof.
  intros H L.
  rewrite <- (firstn_skipn m (firstn m' l)).
  rewrite firstn_firstn, Nat.min_l by exact L.
  rewrite np_sum_app.
  assert (0 <= np_sum (skipn m (firstn m' l))); [| lra].
  apply np_sum_nonneg, Forall_skipn.
  rewrite Forall_forall in *. intros x Hx. apply H.
  rewrite <- (firstn_skipn m' l). apply in_or_app. now left.
Qed.

(** A proper partial sum of positive numbers is below the total. *)
Lemma partial_sum_below_total (l : list R) (m : nat) :
  Forall (fun x => 0 < x) l -> (m < length l)%nat ->
  np_sum (firstn m l) < np_sum l.
Proof.
  intros H L.
  rewrite <- (firstn_skipn m l) at 2. rewrite np_sum_app.
  assert (0 < np_sum (skipn m l)); [| lra].
  apply np_sum_pos; [| now apply Forall_skipn].
  intros E. apply (f_equal (@length R)) in E.
  rewrite length_skipn in E. simpl in E. lia.
Qed.

Section RealSelection.

Variables (w : list R) (V : list (list R)) (d : nat) (v : R).

Hypothesis w_length : length w = d.
Hypothesis V_shape : wf_rows d d V.
Hypothesis d_pos : (1 <= d)%nat.
Hypothesis v_range : 0 < v <= 1.

Lemma sorted_Forall (P : R -> Prop) :
  Forall P w -> Forall P (sorted_eigs (pca_steps w V)).
Proof.
  intros H. now rewrite (sorted_eigs_perm w V).
Qed.

Lemma sorted_total : np_sum (sorted_eigs (pca_steps w V)) = np_sum w.
Proof. apply np_sum_perm, (sorted_eigs_perm w V). Qed.

(** With a positive total, a count reaches [v] when its partial sum is at
    least [v] times the total. *)
Lemma reaches_real (m : nat) :
  0 < np_sum w ->
  reaches (sorted_eigs (pca_steps w V)) v m
  <-> v * np_sum w <= np_sum (firstn m (sorted_eigs (pca_steps w V))).
Proof.
  intros Ht. unfold reaches.
  change (@s_sum R Scalar_R) with np_sum.
  change (@s_div R Scalar_R) with xdiv. change (@s_ge R Scalar_R) with xge.
  rewrite sorted_total. set (c := np_sum (firstn m _)).
  unfold xdiv. rewrite (Reqb_false (np_sum w) 0) by lra. simpl.
  assert (E : c / np_sum w * np_sum w = c) by (field; lra).
  split.
  - intros H. assert (v <= c / np_sum w) by rcases.
    rewrite <- E. now apply Rmult_le_compat_r; [lra |].
  - intros H. apply Rleb_true.
    apply (Rmult_le_reg_r (np_sum w)); [exact Ht |]. now rewrite E.
Qed.

(** With non-negative eigenvalues that are not all zero, the counts that
    reach [v] are exactly those from the count kept on. *)
Lemma kept_threshold (m : nat) :
  Forall (fun x => 0 <= x) w -> np_sum w <> 0 -> (1 <= m <= d)%nat ->
  reaches (sorted_eigs (pca_steps w V)) v m <-> (kept w V v <= m)%nat.
Proof.
  intros Hw Hnz Hm.
  assert (Ht : 0 < np_sum w).
  { pose proof (np_sum_nonneg w Hw). lra. }
  assert (NZ : s_sum (sorted_eigs (pca_steps w V)) <> s_zero).
  { change (np_sum (sorted_eigs (pca_steps w V)) <> 0).
    rewrite sorted_total. exact Hnz. }
  destruct (kept_smallest w V d v w_length d_pos) as [Hk Hlt].
  { exists d. split; [lia |]. rewrite <- w_length.
    apply reaches_all; [exact NZ | lra]. }
  split.
  - intros Hr. destruct (Nat.le_gt_cases (kept w V v) m) as [L | L]; [exact L |].
    exfalso. apply (Hlt m); [lia | exact Hr].
  - intros L. apply reaches_real; [exact Ht |].
    apply reaches_real in Hk; [| exact Ht].
    eapply Rle_trans; [exact Hk |].
    apply partial_sums_monotone; [| exact L].
    now apply sorted_Forall.
Qed.

End RealSelection.

(** With positive eigenvalues and [var = 1], every component is kept. *)
Lemma kept_all (w : list R) (V : list (list R)) (d : nat) :
  length w = d -> (1 <= d)%nat ->
  Forall (fun x => 0 < x) w -> kept w V 1 = d.
Proof.
  intros w_length d_pos Hw.
  assert (Hw0 : Forall (fun x => 0 <= x) w).
  { eapply Forall_impl; [| exact Hw]. intros x Hx. simpl in Hx. lra. }
  assert (Ht : 0 < np_sum w).
  { apply np_sum_pos; [| exact Hw]. intros ->. simpl in w_length. lia. }
  pose proof (kept_bounds w V d 1 w_length) as Hb.
  destruct (Nat.eq_dec (kept w V 1) d) as [E | E]; [exact E | exfalso].
  assert (L : (kept w V 1 < d)%nat) by lia.
  assert (Hr : reaches (sorted_eigs (pca_steps w V)) 1 (kept w V 1)).
  { apply (kept_threshold w V d 1); auto; try lra; lia. }
  apply reaches_real in Hr; [| exact Ht].
  pose proof (partial_sum_below_total (sorted_eigs (pca_steps w V))
                (kept w V 1) (sorted_Forall w V _ Hw)) as Hlt.
  rewrite sorted_eigs_length, sorted_total in Hlt.
  specialize (Hlt ltac:(lia)). lra.
Qed.

(** X12.  When the eigensolver returns real eigenvalues that are not
    negative and not all zero (as the eigenvalues of a covariance are), the
    count [nd] of columns [pca] returns is a true threshold: a count [m] of
    leading components reaches [var] if and only if [nd <= m]. *)
Theorem pca_threshold :
  forall (eig : list (list R) -> eig_out) (n d : nat) (M : list (list R))
         (v : R) (w : list R) (V : list (list R)),
    eig_shapes eig -> wf_rows n d M -> (2 <= n)%nat -> (2 <= d)%nat ->
    0 < v <= 1 ->
    eig (covariance n d M) = EigReal w V ->
    Forall (fun x => 0 <= x) w -> np_sum w <> 0 ->
    exists A,
      pca eig (matrix_obj n d M) (VNum v) = Ok (WReal A)
      /\ fst (shape2 A) = d
      /\ forall m, (1 <= m <= d)%nat ->
           (reaches (sorted_eigs (pca_steps w V)) v m
            <-> (snd (shape2 A) <= m)%nat).
Proof.
  intros eig n d M v w V He HM Hn Hd Hv Ee Hw Hnz.
  pose proof (He d (covariance n d M) (wf_covariance n d M (proj1 HM))) as Hs.
  rewrite Ee in Hs. destruct Hs as (Hl & HVn & HVr).
  destruct (select_leading w V d v Hl (conj HVn HVr)) as (A & HA & HL);
    [lia |].
  exists A. rewrite pca_unfold, Ee, HA by assumption.
  split; [reflexivity |].
  destruct HL as (_ & _ & Hshape & _). rewrite Hshape. simpl.
  split; [reflexivity |].
  intros m Hm. apply (kept_threshold w V d v); auto. lia.
Qed.

Lemma eig_diagonal_X_line :
  eig_diagonal (covariance 2 2 X_line) = EigReal [2; 0] [[1; 0]; [0; 1]].
Proof. now rewrite covariance_X_line. Qed.

Lemma pca_threshold_witness :
  exists A,
    pca eig_diagonal (matrix_obj 2 2 X_line) (VNum (19 / 20)) = Ok (WReal A)
    /\ fst (shape2 A) = 2%nat
    /\ forall m, (1 <= m <= 2)%nat ->
         (reaches (sorted_eigs (pca_steps [2; 0] [[1; 0]; [0; 1]])) (19 / 20) m
          <-> (snd (shape2 A) <= m)%nat).
Proof.
  apply (pca_threshold eig_diagonal 2%nat 2%nat X_line (19 / 20)).
  - exact eig_diagonal_shapes.
  - exact wf_X_line.
  - lia.
  - lia.
  - lra.
  - exact eig_diagonal_X_line.
  - repeat constructor; lra.
  - unfold np_sum. simpl. lra.
Defined.

(** X13.  With [var = 1] and real eigenvalues that are all positive, [pca]
    keeps every component: the weights have shape (d, d). *)
Theorem pca_keeps_all :
  forall (eig : list (list R) -> eig_out) (n d : nat) (M : list (list R))
         (w : list R) (V : list (list R)),
    eig_shapes eig -> wf_rows n d M -> (2 <= n)%nat -> (2 <= d)%nat ->
    eig (covariance n d M) = EigReal w V ->
    Forall (fun x => 0 < x) w ->
    exists A,
      pca eig (matrix_obj n d M) (VNum 1) = Ok (WReal A)
      /\ shape2 A = (d, d).
Proof.
  intros eig n d M w V He HM Hn Hd Ee Hw.
  pose proof (He d (covariance n d M) (wf_covariance n d M (proj1 HM))) as Hs.
  rewrite Ee in Hs. destruct Hs as (Hl & HVn & HVr).
  destruct (select_leading w V d 1 Hl (conj HVn HVr)) as (A & HA & HL);
    [lia |].
  exists A. rewrite pca_unfold, Ee, HA by (auto; lra).
  split; [reflexivity |].
  destruct HL as (_ & _ & Hshape & _). rewrite Hshape.
  now rewrite (kept_all w V d Hl) by (auto; lia).
Qed.

Lemma covariance_X_square :
  covariance 4 2 X_square = [[4 / 3; 0]; [0; 4 / 3]].
Proof.
  rewrite (covariance_build 4 2 X_square) by reflexivity.
  unfold X_square, column_mean, big_sum, entry. simpl. entries_eq.
Qed.

Lemma pca_keeps_all_witness :
  exists A,
    pca eig_diagonal (matrix_obj 4 2 X_square) (VNum 1) = Ok (WReal A)
    /\ shape2 A = (2%nat, 2%nat).
Proof.
  apply (pca_keeps_all eig_diagonal 4%nat 2%nat X_square
           [4 / 3; 4 / 3] [[1; 0]; [0; 1]]).
  - exact eig_diagonal_shapes.
  - split; [reflexivity | repeat constructor].
  - lia.
  - lia.
  - now rewrite covariance_X_square.
  - repeat constructor; lra.
Defined.

(** ** The script of 0-pca.py *)

(** Columns kept for a smaller target are no more than for a larger one. *)
Lemma pca_ncols_le (eig : list (list R) -> eig_out) (X : pyobj) (v1 v2 : R)
    (W1 W2 : weights) :
  v1 <= v2 -> v2 <= 1 ->
  pca eig X (VNum v1) = Ok W1 -> pca eig X (VNum v2) = Ok W2 ->
  (ncols W1 <= ncols W2)%nat.
Proof.
  intros H12 H2 E1 E2.
  apply pca_Ok_inv in E1. apply pca_Ok_inv in E2.
  destruct E1 as (a & d0 & C0 & -> & Hc & E1).
  destruct E2 as (a' & d0' & C0' & Ha & Hc' & E2).
  injection Ha as <-. rewrite Hc in Hc'. injection Hc' as <- <-.
  destruct (eig C0) as [w V | w V];
    destruct E1 as (A1 & S1 & ->); destruct E2 as (A2 & S2 & ->);
    unfold ncols; simpl;
    apply (select_monotone w V v1 v2 A1 A2 H12 H2 S1 S2).
Qed.

(** X14.  The script calls [pca] on one data set with [var] 0.95, 0.99 and
    0.80 and ends with the check [d_80 <= d_95 <= d_99]; whenever the three
    calls return, the answer it prints is Yes. *)
Theorem main_check_yes :
  forall (eig : list (list R) -> eig_out) (X : pyobj) (W_95 W_99 W_80 : weights),
    pca eig X (VNum (95 / 100)) = Ok W_95 ->
    pca eig X (VNum (99 / 100)) = Ok W_99 ->
    pca eig X (VNum (80 / 100)) = Ok W_80 ->
    main_check (ncols W_80) (ncols W_95) (ncols W_99) = "Yes".
Proof.
  intros eig X W_95 W_99 W_80 E95 E99 E80. unfold main_check.
  assert (L1 : (ncols W_80 <= ncols W_95)%nat).
  { apply (pca_ncols_le eig X (80 / 100) (95 / 100)); auto; lra. }
  assert (L2 : (ncols W_95 <= ncols W_99)%nat).
  { apply (pca_ncols_le eig X (95 / 100) (99 / 100)); auto; lra. }
  apply Nat.leb_le in L1. apply Nat.leb_le in L2.
  now rewrite L1, L2.
Qed.

Lemma main_check_yes_witness :
  exists W_95 W_99 W_80,
    pca eig_diagonal (matrix_obj 2 2 X_line) (VNum (95 / 100)) = Ok W_95
    /\ pca eig_diagonal (matrix_obj 2 2 X_line) (VNum (99 / 100)) = Ok W_99
    /\ pca eig_diagonal (matrix_obj 2 2 X_line) (VNum (80 / 100)) = Ok W_80
    /\ main_check (ncols W_80) (ncols W_95) (ncols W_99) = "Yes".
Proof.
  destruct (pca_shape eig_diagonal eig_diagonal_shapes 2 2 X_line (95 / 100)
              wf_X_line) as (W_95 & H95 & _); [lia | lia | lra |].
  destruct (pca_shape eig_diagonal eig_diagonal_shapes 2 2 X_line (99 / 100)
              wf_X_line) as (W_99 & H99 & _); [lia | lia | lra |].
  destruct (pca_shape eig_diagonal eig_diagonal_shapes 2 2 X_line (80 / 100)
              wf_X_line) as (W_80 & H80 & _); [lia | lia | lra |].
  exists W_95, W_99, W_80.
  split; [exact H95 |]. split; [exact H99 |]. split; [exact H80 |].
  exact (main_check_yes eig_diagonal (matrix_obj 2 2 X_line) W_95 W_99 W_80
           H95 H99 H80).
Defined.

(** ** [mean_cov]: repeated observations and constant features *)

Lemma big_sum_rows_twice (h : list R -> R) (M : list (list R)) :
  big_sum (length M + length M) (fun i => h (nth i (M ++ M) []))
  = 2 * big_sum (length M) (fun i => h (nth i M [])).
Proof.
  rewrite <- length_app, !big_sum_rows, map_app, np_sum_app. lra.
Qed.

Lemma column_mean_twice (n : nat) (M : list (list R)) (j : nat) :
  length M = n -> (1 <= n)%nat ->
  column_mean (n + n) (M ++ M) j = column_mean n M j.
Proof.
  intros Hn H1. unfold column_mean, entry. subst n.
  rewrite (big_sum_rows_twice (fun r => nth j r 0) M), plus_INR.
  pose proof (INR_pos _ H1). field. lra.
Qed.

Lemma unbiased_cov_twice (n : nat) (M : list (list R)) (j k : nat) :
  length M = n -> (2 <= n)%nat ->
  unbiased_cov (n + n) (M ++ M) j k
  = unbiased_cov n M j k * (2 * (INR n - 1) / (2 * INR n - 1)).
Proof.
  intros Hn H2. unfold unbiased_cov.
  rewrite !(column_mean_twice n M) by (auto; lia).
  unfold entry. subst n.
  rewrite (big_sum_rows_twice
    (fun r => (nth j r 0 - column_mean (length M) M j)
              * (nth k r 0 - column_mean (length M) M k)) M).
  rewrite plus_INR.
  assert (2 <= INR (length M)).
  { apply le_INR in H2. simpl in H2. lra. }
  field. split; lra.
Qed.

(** X16.  Repeating every observation once more leaves the mean [mean_cov]
    returns as it is and multiplies every entry of the covariance by
    [2 (n - 1) / (2 n - 1)]. *)
Theorem mean_cov_repeated :
  forall (n d : nat) (M : list (list R)),
    wf_rows n d M -> (2 <= n)%nat ->
    exists mean cov cov' : ndarray,
      mean_cov (matrix_obj n d M) = Ok (mean, cov)
      /\ mean_cov (matrix_obj (n + n) d (M ++ M)) = Ok (mean, cov')
      /\ forall j k, (j < d)%nat -> (k < d)%nat ->
           entry (rows cov') j k
           = entry (rows cov) j k * (2 * (INR n - 1) / (2 * INR n - 1)).
Proof.
  intros n d M HM Hn.
  assert (HMM : wf_rows (n + n) d (M ++ M)).
  { destruct HM as [Hl Hr]. split.
    - rewrite length_app. lia.
    - apply Forall_app. now split. }
  exists (mkArray Numeric [1%nat; d] (np_mean_axis0 n d M)),
         (mkArray Numeric [d; d] (mean_cov_rows n d M)),
         (mkArray Numeric [d; d] (mean_cov_rows (n + n) d (M ++ M))).
  split; [now apply mean_cov_returns |].
  split.
  - rewrite mean_cov_returns by lia. do 3 f_equal.
    apply (rows_ext 1 d); try apply wf_mean_rows.
    intros i j Hi Hj. assert (i = 0%nat) as -> by lia.
    rewrite (entry_mean_rows (n + n) d), (entry_mean_rows n d)
      by (auto; apply HM || apply HMM).
    apply column_mean_twice; [apply HM | lia].
  - intros j k Hj Hk. simpl.
    rewrite !entry_mean_cov_rows by (auto; lia).
    apply unbiased_cov_twice; [apply HM | exact Hn].
Qed.

Lemma mean_cov_repeated_witness :
  exists mean cov cov' : ndarray,
    mean_cov (matrix_obj 4 2 X_example) = Ok (mean, cov)
    /\ mean_cov (matrix_obj (4 + 4) 2 (X_example ++ X_example))
       = Ok (mean, cov')
    /\ forall j k, (j < 2)%nat -> (k < 2)%nat ->
         entry (rows cov') j k
         = entry (rows cov) j k * (2 * (INR 4 - 1) / (2 * INR 4 - 1)).
Proof.
  apply (mean_cov_repeated 4%nat 2%nat X_example).
  - exact wf_X_example.
  - lia.
Defined.

(** X17.  A feature that has the same value in every observation has no
    variance and no covariance with any feature: its row and its column of
    the covariance [mean_cov] returns are zero. *)
Theorem mean_cov_constant_feature :
  forall (n d : nat) (M : list (list R)) (j : nat) (c : R),
    wf_rows n d M -> (2 <= n)%nat -> (j < d)%nat ->
    (forall i, (i < n)%nat -> entry M i j = c) ->
    exists mean cov : ndarray,
      mean_cov (matrix_obj n d M) = Ok (mean, cov)
      /\ forall k, (k < d)%nat ->
           entry (rows cov) j k = 0 /\ entry (rows cov) k j = 0.
Proof.
  intros n d M j c HM Hn Hj Hc.
  assert (Hm : column_mean n M j = c).
  { unfold column_mean.
    rewrite (big_sum_ext n _ (fun _ => c)) by exact Hc.
    rewrite big_sum_const. pose proof (INR_pos n ltac:(lia)). field. lra. }
  do 2 eexists. split; [now apply mean_cov_returns |].
  simpl. intros k Hk.
  rewrite !entry_mean_cov_rows by assumption. unfold unbiased_cov.
  rewrite Hm. split.
  - rewrite (big_sum_ext n _ (fun _ => 0)).
    + rewrite big_sum_const. unfold Rdiv. ring.
    + intros i Hi. rewrite (Hc i Hi). ring.
  - rewrite (big_sum_ext n _ (fun _ => 0)).
    + rewrite big_sum_const. unfold Rdiv. ring.
    + intros i Hi. rewrite (Hc i Hi). ring.
Qed.

Lemma mean_cov_constant_feature_witness :
  exists mean cov : ndarray,
    mean_cov (matrix_obj 2 2 X_line) = Ok (mean, cov)
    /\ forall k, (k < 2)%nat ->
         entry (rows cov) 1 k = 0 /\ entry (rows cov) k 1 = 0.
Proof.
  apply (mean_cov_constant_feature 2%nat 2%nat X_line 1%nat 0).
  - exact wf_X_line.
  - lia.
  - lia.
  - intros i Hi. unfold X_line, entry.
    destruct i as [| [| i]]; simpl; try reflexivity. lia.
Defined.

(** ** [correlation]: whatever the variances *)

(** X18.  On every square numeric matrix, also one with a zero or a negative
    diagonal entry, [correlation] returns a matrix of the same shape whose
    diagonal is exactly 1: the diagonal is overwritten after the division. *)
Theorem correlation_unit_diagonal :
  forall (d : nat) (M : list (list R)),
    wf_rows d d M ->
    exists K : ndarray,
      correlation (matrix_obj d d M) = Ok K
      /\ shape K = [d; d] /\ wf_rows d d (rows K)
      /\ forall i, (i < d)%nat -> entry (rows K) i i = 1.
Proof.
  intros d M HM.
  exists (mkArray Numeric [d; d] (correlation_rows d M)).
  split; [apply correlation_unfold |].
  split; [reflexivity |].
  split; [now apply wf_correlation_rows |].
  intros i Hi. simpl.
  rewrite entry_correlation_rows by assumption. now rewrite Nat.eqb_refl.
Qed.

Lemma correlation_unit_diagonal_witness :
  exists K : ndarray,
    correlation (matrix_obj 2 2 [[0; 2]; [2; -9]]) = Ok K
    /\ shape K = [2%nat; 2%nat] /\ wf_rows 2 2 (rows K)
    /\ forall i, (i < 2)%nat -> entry (rows K) i i = 1.
Proof.
  apply (correlation_unit_diagonal 2%nat [[0; 2]; [2; -9]]).
  split; [reflexivity | repeat constructor].
Defined.
